(** * rharkor/utils: a shallow embedding of [src/index.ts]

    The library is a flat module of independent helpers.  Each exported
    function is rendered below as a Rocq function over a small model of the
    JavaScript host: numbers, strings, runtime values with [typeof], the
    diagnostic console, calls of a callback and abrupt completions.

    Conventions of the model.
    - A [number] is [NaN] or a finite rational; arithmetic is exact.  This
      agrees with IEEE-754 double arithmetic as long as every intermediate
      value is exactly representable (integers below 2^53 in absolute value);
      infinities and rounding are outside the model.  The two fractional
      constants of [getTimeBetween] are evaluated with Rocq's binary64
      primitives, exactly as the host evaluates them.
    - A string is a [string] of 8-bit code units (U+0000 to U+00FF); code
      units above 255 are outside the model, except for the hash of
      [stringToColor], which is stated over arbitrary lists of char codes.
    - An object (boxed string, array, function, other) carries the location
      that is its identity.
    - Effects are explicit: a computation maps the trace of events so far to
      a completion (normal or abrupt) and the extended trace.
    - [debounce] is followed on a model of the host's timers; [sleep] only
      wraps one such timer in a promise and is left out. *)

From Stdlib Require Import ZArith QArith Qround List String Ascii Lia Lqa Bool Arith.
From Stdlib Require Import SetoidList Morphisms.
From Stdlib Require DecimalString HexadecimalString DecimalPos.
From Stdlib Require PrimFloat FloatOps SpecFloat.
From Equations Require Import Equations.
Import ListNotations.

Set Warnings "-register-all,-notation-for-abbreviation".

Open Scope string_scope.
Open Scope list_scope.
Open Scope Z_scope.

(* ===================================================================== *)
(** * Part I: the host model *)
(* ===================================================================== *)

(** ** Numbers *)

Inductive number : Type :=
| NaN
| Num (q : Q).

Definition isNaN (n : number) : bool :=
  match n with NaN => true | Num _ => false end.





(** [a <= b] on numbers: false as soon as one side is [NaN]. *)
Definition number_leb (a b : number) : bool :=
  match a, b with
  | Num p, Num q => Qle_bool p q
  | _, _ => false
  end.

(** ToIntegerOrInfinity: truncation toward zero, [NaN] becomes 0. *)
Definition ToIntegerOrInfinity (n : number) : Z :=
  match n with
  | NaN => 0
  | Num q => if Qle_bool 0 q then Qfloor q else Qceiling q
  end.



(** [Number.prototype.toString()] and [.toString(16)] on integer values
    (below 10^21 in absolute value, where the host prints plain digits). *)
Definition Number_toString (z : Z) : string :=
  DecimalString.NilZero.string_of_int (Z.to_int z).


(** The value of a finite binary64 float, as a rational. *)
Definition Q_of_float (f : PrimFloat.float) : Q :=
  match FloatOps.Prim2SF f with
  | SpecFloat.S754_finite s m e =>
      let mag := if e <? 0 then Z.pos m # (2 ^ Z.to_pos (- e))
                 else inject_Z (Z.pos m * 2 ^ e) in
      if s then Qopp mag else mag
  | _ => 0%Q
  end.

(** ** Strings *)

Definition String_length (s : string) : Z := Z.of_nat (String.length s).

(** A relative index of [slice]: negative counts from the end, and the result
    is clamped to [0, len]. *)
Definition relative_index (len k : Z) : Z :=
  if k <? 0 then Z.max (len + k) 0 else Z.min k len.

(** [String.prototype.slice(start, end)]. *)
Definition String_slice (s : string) (start end_ : Z) : string :=
  let len := String_length s in
  let from := relative_index len start in
  let to := relative_index len end_ in
  substring (Z.to_nat from) (Z.to_nat (to - from)) s.

(** [String.prototype.slice(start)]: [end] defaults to the length. *)
Definition String_slice_from (s : string) (start : Z) : string :=
  String_slice s start (String_length s).


Definition charCode (c : ascii) : Z := Z.of_N (N_of_ascii c).

Definition code_between (lo hi : Z) (c : ascii) : bool :=
  (lo <=? charCode c) && (charCode c <=? hi).

(** The classes [A-Z], [a-z], [0-9] and [\w] of the regular expressions. *)
Definition is_upper (c : ascii) : bool := code_between 65 90 c.
Definition is_lower (c : ascii) : bool := code_between 97 122 c.
Definition is_digit (c : ascii) : bool := code_between 48 57 c.
Definition is_word (c : ascii) : bool :=
  is_upper c || is_lower c || is_digit c || Ascii.eqb c "_".

(** Upper-case letters of Latin-1 outside ASCII: U+00C0 to U+00DE except the
    multiplication sign U+00D7. *)
Definition is_upper_latin1 (c : ascii) : bool :=
  code_between 192 222 c && negb (charCode c =? 215).

Definition shift_code (c : ascii) (d : Z) : ascii :=
  ascii_of_N (Z.to_N (charCode c + d)).

(** [toLowerCase] on one code unit, and on a string. *)
Definition lower_char (c : ascii) : ascii :=
  if is_upper c || is_upper_latin1 c then shift_code c 32 else c.

Fixpoint toLowerCase (s : string) : string :=
  match s with
  | EmptyString => EmptyString
  | String c r => String (lower_char c) (toLowerCase r)
  end.

(** [toUpperCase] on ASCII text; the source applies it to matches of
    [/[-_][a-z]/] only. *)
Definition upper_char (c : ascii) : ascii :=
  if is_lower c then shift_code c (-32) else c.

Fixpoint toUpperCase (s : string) : string :=
  match s with
  | EmptyString => EmptyString
  | String c r => String (upper_char c) (toUpperCase r)
  end.

(** [s.replace(c, "")] with a one-character string pattern: the first
    occurrence is removed. *)
Fixpoint remove_first (c : ascii) (s : string) : string :=
  match s with
  | EmptyString => EmptyString
  | String d r => if Ascii.eqb d c then r else String d (remove_first c r)
  end.

(** ** Values, events and computations *)

Definition loc : Type := nat.

Inductive error : Type :=
| RangeError (message : string)
| TypeError (message : string)
| Thrown (tag : nat).

(** A function value carries its behaviour: whether its k-th invocation
    (counted from 0) returns normally ([None]) or throws. *)
Inductive value : Type :=
| VUndefined
| VNull
| VBoolean (b : bool)
| VNumber (n : number)
| VString (s : string)
| VStringObject (l : loc) (s : string)
| VArray (l : loc) (elems : list value)
| VFunction (l : loc) (behaviour : nat -> option error)
| VObject (l : loc).

Definition typeof (v : value) : string :=
  match v with
  | VUndefined => "undefined"
  | VNull => "object"
  | VBoolean _ => "boolean"
  | VNumber _ => "number"
  | VString _ => "string"
  | VStringObject _ _ => "object"
  | VArray _ _ => "object"
  | VFunction _ _ => "function"
  | VObject _ => "object"
  end.

(** [typeof text === "string" || text instanceof String], with the text. *)
Definition string_like (v : value) : option string :=
  match v with
  | VString s => Some s
  | VStringObject _ s => Some s
  | _ => None
  end.


Inductive event : Type :=
| ConsoleError (message : string)
| ConsoleTime (label : string)
| ConsoleTimeEnd (label : string)
| Invoke (callee : loc).

Definition trace : Type := list event.

Inductive completion (A : Type) : Type :=
| Normal (a : A)
| Throw (e : error).
Arguments Normal {A} a.
Arguments Throw {A} e.

Definition M (A : Type) : Type := trace -> completion A * trace.

Definition ret {A : Type} (a : A) : M A := fun tr => (Normal a, tr).

Definition bind {A B : Type} (m : M A) (k : A -> M B) : M B :=
  fun tr =>
    match m tr with
    | (Normal a, tr') => k a tr'
    | (Throw e, tr') => (Throw e, tr')
    end.

Notation "x <- m ;; k" := (bind m (fun x => k))
  (at level 61, m at next level, right associativity).
Notation "m ;; k" := (bind m (fun _ => k))
  (at level 61, right associativity).

Definition lift {A : Type} (c : completion A) : M A := fun tr => (c, tr).

Definition console_error (message : string) : M unit :=
  fun tr => (Normal tt, tr ++ [ConsoleError message]).

Definition is_invoke (l : loc) (e : event) : bool :=
  match e with Invoke l' => Nat.eqb l l' | _ => false end.

Definition invocations (l : loc) (tr : trace) : nat :=
  List.length (filter (is_invoke l) tr).


(** [func()]: the call is recorded, then completes as the behaviour says. *)
Definition call (func : value) : M value :=
  fun tr =>
    match func with
    | VFunction l behaviour =>
        match behaviour (invocations l tr) with
        | None => (Normal VUndefined, tr ++ [Invoke l])
        | Some e => (Throw e, tr ++ [Invoke l])
        end
    | _ => (Throw (TypeError "func is not a function"), tr)
    end.

(** [Array(len)]: a valid array length is an integer in [0, 2^32 - 1]. *)
Definition array_length (len : number) : option nat :=
  match len with
  | NaN => None
  | Num q =>
      let r := Qred q in
      if (Z.pos (Qden r) =? 1) && (0 <=? Qnum r) && (Qnum r <? 2 ^ 32)
      then Some (Z.to_nat (Qnum r)) else None
  end.

(** [Array.from(Array(len))]: [len] elements, all [undefined]. *)
Definition Array_from_Array (len : number) : completion (list value) :=
  match array_length len with
  | Some n => Normal (repeat VUndefined n)
  | None => Throw (RangeError "Invalid array length")
  end.

Fixpoint forEach {A : Type} (l : list A) (callback : A -> M unit) : M unit :=
  match l with
  | [] => ret tt
  | x :: r => callback x ;; forEach r callback
  end.

Definition default {A : Type} (d : A) (arg : option A) : A :=
  match arg with Some a => a | None => d end.

(* ===================================================================== *)
(** * Part II: the functions of [src/index.ts] *)
(* ===================================================================== *)

(** ** sizedDecimal *)

(** [for (let i = 0; i < length; i += 1) pre += "0"]: the body runs once
    for every integer [i] with [0 <= i < length]. *)
Definition sizedDecimal (number length : Z) : string :=
  let pre := Nat.iter (Z.to_nat length) (fun pre => (pre ++ "0")%string) "" in
  let joined := (pre ++ Number_toString number)%string in
  String_slice_from joined (String_length joined - length).

(** ** times *)

Definition times (times : number) (func : value) : M value :=
  if isNaN times then
    console_error "times to run must be specified" ;;
    ret VUndefined
  else if negb (typeof func =? "function")%string then
    console_error
      ("func must be a valid function, " ++ typeof func ++ " provided")%string ;;
    ret VUndefined
  else
    arr <- lift (Array_from_Array times) ;;
    forEach arr (fun _ => call func ;; ret tt) ;;
    ret VUndefined.

(** ** getRandomNumberInRange *)


(** ** shorten *)

Definition shorten (text : value) (length ellipsisCount : option number)
  : M value :=
  let length := default (Num 10) length in
  let ellipsisCount := default (Num 3) ellipsisCount in
  match string_like text with
  | None =>
      console_error ("expecting a string, " ++ typeof text ++ " provided")%string ;;
      ret (VString "")
  | Some s =>
      if isNaN length || isNaN ellipsisCount then
        console_error "length and ellipsisCount must be valid numbers" ;;
        ret VUndefined
      else if number_leb (Num (inject_Z (String_length s))) length then
        ret text
      else
        arr <- lift (Array_from_Array ellipsisCount) ;;
        let ellipsis := String.concat "" (map (fun _ => ".") arr) in
        ret (VString
               (String_slice s 0 (ToIntegerOrInfinity length) ++ ellipsis)%string)
  end.

(** ** removeDuplicates *)

Definition object_loc (v : value) : option loc :=
  match v with
  | VStringObject l _ | VArray l _ | VFunction l _ | VObject l => Some l
  | _ => None
  end.

(** SameValueZero, the equality of [Set]: primitives by value ([NaN] equal
    to itself), objects by identity. *)
Definition sameValueZero (x y : value) : bool :=
  match x, y with
  | VUndefined, VUndefined => true
  | VNull, VNull => true
  | VBoolean a, VBoolean b => Bool.eqb a b
  | VNumber NaN, VNumber NaN => true
  | VNumber (Num p), VNumber (Num q) => Qeq_bool p q
  | VString s, VString t => String.eqb s t
  | _, _ =>
      match object_loc x, object_loc y with
      | Some l, Some m => Nat.eqb l m
      | _, _ => false
      end
  end.

(** A [Set] is its list of entries in insertion order. *)
Definition Set_has (entries : list value) (v : value) : bool :=
  existsb (sameValueZero v) entries.

Definition Set_add (entries : list value) (v : value) : list value :=
  if Set_has entries v then entries else entries ++ [v].

Definition new_Set (iterable : list value) : list value :=
  fold_left Set_add iterable [].

(** The result is [None] for [undefined], and [Some elems] for a freshly
    allocated array holding [elems]. *)
Definition removeDuplicates (arr : value) : M (option (list value)) :=
  match arr with
  | VArray _ elems => ret (Some (new_Set elems))
  | _ =>
      console_error ("array expected, " ++ typeof arr ++ " provided")%string ;;
      ret None
  end.

(** ** measureTime *)

(** The promise an [async] function returns, once settled. *)
Inductive promise : Type :=
| Resolved (v : value)
| Rejected (e : error).

Definition async (body : M value) : trace -> promise * trace :=
  fun tr =>
    match body tr with
    | (Normal v, tr') => (Resolved v, tr')
    | (Throw e, tr') => (Rejected e, tr')
    end.

Definition console_time (label : string) : M unit :=
  fun tr => (Normal tt, tr ++ [ConsoleTime label]).

Definition console_timeEnd (label : string) : M unit :=
  fun tr => (Normal tt, tr ++ [ConsoleTimeEnd label]).

Definition measureTime (func : value) (label : option string)
  : trace -> promise * trace :=
  let label := default "default" label in
  async
    (if negb (typeof func =? "function")%string then
       console_error
         ("func must be a valid function, " ++ typeof func ++ " provided")%string ;;
       ret VUndefined
     else
       console_time label ;;
       call func ;;
       console_timeEnd label ;;
       ret VUndefined).

(** ** slugify *)

(** [.replace(/ /g, "-")]. *)
Fixpoint replace_spaces (s : string) : string :=
  match s with
  | EmptyString => EmptyString
  | String c r => String (if Ascii.eqb c " " then "-"%char else c) (replace_spaces r)
  end.

(** [.replace(/[^\w-]+/g, "")]. *)
Fixpoint remove_non_word (s : string) : string :=
  match s with
  | EmptyString => EmptyString
  | String c r =>
      if is_word c || Ascii.eqb c "-" then String c (remove_non_word r)
      else remove_non_word r
  end.

Definition slugify (text : value) : M value :=
  match string_like text with
  | None =>
      console_error ("string expected, " ++ typeof text ++ " provided")%string ;;
      ret text
  | Some s => ret (VString (remove_non_word (replace_spaces (toLowerCase s))))
  end.

(** ** camelToSnakeCase *)

(** [.replace(/[A-Z]/g, (letter) => `_${letter.toLowerCase()}`)]. *)
Fixpoint replace_upper (s : string) : string :=
  match s with
  | EmptyString => EmptyString
  | String c r =>
      if is_upper c
      then ("_" ++ toLowerCase (String c "") ++ replace_upper r)%string
      else String c (replace_upper r)
  end.

Definition camelToSnakeCase (text : value) : M value :=
  match string_like text with
  | None =>
      console_error ("string expected, " ++ typeof text ++ " provided")%string ;;
      ret text
  | Some s => ret (VString (replace_upper s))
  end.

(** ** snakeToCamelCase *)

Definition is_separator (c : ascii) : bool := Ascii.eqb c "-" || Ascii.eqb c "_".

(** [(group) => group.toUpperCase().replace("-", "").replace("_", "")]. *)
Definition camel_group (group : string) : string :=
  remove_first "_" (remove_first "-" (toUpperCase group)).

(** [.replace(/([-_][a-z])/g, ...)]: matches are found left to right and do
    not overlap. *)
Fixpoint replace_groups (s : string) : string :=
  match s with
  | EmptyString => EmptyString
  | String c t =>
      match t with
      | EmptyString => String c EmptyString
      | String d r =>
          if is_separator c && is_lower d
          then (camel_group (String c (String d "")) ++ replace_groups r)%string
          else String c (replace_groups t)
      end
  end.

Definition snakeToCamelCase (text : value) : M value :=
  match string_like text with
  | None =>
      console_error ("string expected, " ++ typeof text ++ " provided")%string ;;
      ret text
  | Some s => ret (VString (replace_groups (toLowerCase s)))
  end.

(** ** stringToColor *)







(** ** chunk *)

Section Chunk.

Context {T : Type}.

(** [Array.prototype.slice(start, end)]. *)
Definition Array_slice (array : list T) (start end_ : Z) : list T :=
  let len := Z.of_nat (List.length array) in
  let k := relative_index len start in
  let final := relative_index len end_ in
  firstn (Z.to_nat (final - k)) (skipn (Z.to_nat k) array).

(** The state of the loop: the index [i] and [result]. *)
Definition chunk_state : Type := (Z * list (list T))%type.

(** One turn of [for (let i = 0; i < array.length; i += size)]: [None] when
    the test fails and the loop is left. *)
Definition chunk_step (array : list T) (size : Z) (st : chunk_state)
  : option chunk_state :=
  let '(i, result) := st in
  if i <? Z.of_nat (List.length array)
  then Some (i + size, result ++ [Array_slice array i (i + size)])
  else None.

(** The loop run for at most [fuel] turns: [None] when the fuel runs out
    before the loop is left. *)
Fixpoint chunk_loop (fuel : nat) (array : list T) (size : Z) (st : chunk_state)
  : option (list (list T)) :=
  match chunk_step array size st with
  | None => Some (snd st)
  | Some st' =>
      match fuel with
      | O => None
      | S fuel' => chunk_loop fuel' array size st'
      end
  end.

Definition chunk_fuel (fuel : nat) (array : list T) (size : Z)
  : option (list (list T)) :=
  chunk_loop fuel array size (0, []).

(** [chunk(array, size)] returns [res]. *)
Definition chunk_returns (array : list T) (size : Z) (res : list (list T)) : Prop :=
  exists fuel, chunk_fuel fuel array size = Some res.


(** Under [1 <= size] the loop is a total function, by well-founded
    recursion on the remaining range. *)
Equations? chunk_from (array : list T) (size : Z) (Hsize : 1 <= size)
  (i : Z) (result : list (list T)) : list (list T)
  by wf (Z.to_nat (Z.of_nat (List.length array) - i)) lt :=
chunk_from array size Hsize i result with Z_lt_dec i (Z.of_nat (List.length array)) => {
  | left _ => chunk_from array size Hsize (i + size)
                (result ++ [Array_slice array i (i + size)]);
  | right _ => result }.
Proof. lia. Qed.

Definition chunk (array : list T) (size : Z) (Hsize : 1 <= size) : list (list T) :=
  chunk_from array size Hsize 0 [].

End Chunk.

(** ** getTimeBetween *)

(** A [Date] is its time value, in milliseconds. *)
Record Date : Type := mkDate { getTime : Z }.

Record units (A : Type) : Type := mkUnits {
  year : A; month : A; day : A; hour : A; minute : A; second : A
}.
Arguments mkUnits {A}.
Arguments year {A}.
Arguments month {A}.
Arguments day {A}.
Arguments hour {A}.
Arguments minute {A}.
Arguments second {A}.

(** The two products with a fractional factor, evaluated in binary64 from
    left to right as the host does. *)
Module Binary64.
Import PrimFloat.
Definition year_interval : float := (365.25 * 24 * 60 * 60 * 1000)%float.
#[warnings="-inexact-float"]
Definition month_interval : float := (30.44 * 24 * 60 * 60 * 1000)%float.
End Binary64.

Definition intervals : units Q := {|
  year := Q_of_float Binary64.year_interval;
  month := Q_of_float Binary64.month_interval;
  day := (24 * 60 * 60 * 1000)%Q;
  hour := (60 * 60 * 1000)%Q;
  minute := (60 * 1000)%Q;
  second := 1000%Q
|}.

(** [Math.floor(timeDiff / interval)].  The quotient is taken exactly; for
    time differences below 2^53 its floor is the floor of the binary64
    quotient. *)
Definition elapsed (timeDiff : Z) : units Z := {|
  year := Qfloor (inject_Z timeDiff / year intervals);
  month := Qfloor (inject_Z timeDiff / month intervals);
  day := Qfloor (inject_Z timeDiff / day intervals);
  hour := Qfloor (inject_Z timeDiff / hour intervals);
  minute := Qfloor (inject_Z timeDiff / minute intervals);
  second := Qfloor (inject_Z timeDiff / second intervals)
|}.

Definition getTimeBetween (firstDate secondDate : Date) : string :=
  let timeDiff := Z.abs (getTime firstDate - getTime secondDate) in
  let elapsed := elapsed timeDiff in
  let '(timeUnit, timeValue) :=
    if year elapsed >? 0 then ("year", year elapsed)
    else if month elapsed >? 0 then ("month", month elapsed)
    else if day elapsed >? 0 then ("day", day elapsed)
    else if hour elapsed >? 0 then ("hour", hour elapsed)
    else if minute elapsed >? 0 then ("minute", minute elapsed)
    else ("second", second elapsed) in
  (Number_toString timeValue ++ " " ++ timeUnit
   ++ (if negb (timeValue =? 1)%Z then "s" else ""))%string.

(** ** debounce *)

(** *** The timers of the host

    [setTimeout] registers a callback under a fresh handle, to be run once
    its delay has passed; [clearTimeout] forgets the timer of a handle if it
    is still pending, and does nothing otherwise; a turn of the event loop
    runs the callbacks whose time has come, earliest first.  Time is counted
    in whole milliseconds, as Node.js does.  Only the timers set by one
    debounced function are followed. *)

(** The callback [() => { func.apply(this, args) }] with what it captured. *)
Record callback : Type := mkCallback {
  cb_func : value; cb_this : value; cb_args : list value
}.

Record pending_timer : Type := mkTimer {
  handle : nat; due : Z; action : callback
}.

(** What the run of a callback leaves behind: the application of the
    function to its arguments, or an exception that nothing catches. *)
Inductive outcome : Type :=
| Applied (func : loc) (this : value) (args : list value)
| Uncaught (e : error).

Record host : Type := mkHost {
  clock : Z; next_handle : nat; pending : list pending_timer;
  happened : list outcome
}.

Definition TIMEOUT_MAX : Z := 2 ^ 31 - 1.

(** The delay of a timer: a delay that is not a number of [1, TIMEOUT_MAX]
    is replaced by 1, and fractions of a millisecond are dropped. *)
Definition timer_delay (after : number) : Z :=
  match after with
  | NaN => 1
  | Num q =>
      if Qle_bool 1 q && Qle_bool q (inject_Z TIMEOUT_MAX) then Qfloor q else 1
  end.

Definition setTimeout (cb : callback) (after : number) (h : host) : nat * host :=
  (next_handle h,
   {| clock := clock h;
      next_handle := S (next_handle h);
      pending := pending h ++ [mkTimer (next_handle h) (clock h + timer_delay after) cb];
      happened := happened h |}).

(** [clearTimeout(timer)]; the variable holds [undefined] at first. *)
Definition clearTimeout (timer : option nat) (h : host) : host :=
  match timer with
  | None => h
  | Some id =>
      {| clock := clock h;
         next_handle := next_handle h;
         pending := filter (fun t => negb (Nat.eqb (handle t) id)) (pending h);
         happened := happened h |}
  end.

(** [func.apply(this, args)]; a value that is not a function has no
    [apply] to call. *)
Definition apply_callback (cb : callback) : outcome :=
  match cb_func cb with
  | VFunction l _ => Applied l (cb_this cb) (cb_args cb)
  | _ => Uncaught (TypeError "func.apply is not a function")
  end.

Fixpoint insert_by_due (t : pending_timer) (l : list pending_timer)
  : list pending_timer :=
  match l with
  | [] => [t]
  | u :: r => if due t <? due u then t :: l else u :: insert_by_due t r
  end.

Definition by_due (l : list pending_timer) : list pending_timer :=
  fold_right insert_by_due [] l.

Definition is_due (now : Z) (t : pending_timer) : bool := due t <=? now.

(** A turn of the event loop. *)
Definition timers_turn (h : host) : host :=
  {| clock := clock h;
     next_handle := next_handle h;
     pending := filter (fun t => negb (is_due (clock h) t)) (pending h);
     happened :=
       happened h
       ++ map (fun t => apply_callback (action t))
            (by_due (filter (is_due (clock h)) (pending h))) |}.

(** [ms] milliseconds pass. *)
Definition elapse (ms : Z) (h : host) : host :=
  {| clock := clock h + Z.max 0 ms;
     next_handle := next_handle h;
     pending := pending h;
     happened := happened h |}.

(** *** The debounced function

    [debounce(func, timeout)] captures [this], [func] and [timeout] (300 by
    default); the function it returns shares the variable [timer]. *)

Record debounced : Type := mkDebounced {
  d_this : value; d_func : value; d_timeout : number
}.

Definition debounce (this func : value) (timeout : option number) : debounced :=
  {| d_this := this; d_func := func; d_timeout := default (Num 300) timeout |}.

(** The variable [timer] of the closure, and the host. *)
Record debounce_state : Type := mkState { timer : option nat; the_host : host }.

(** A call [(...args) => { clearTimeout(timer); timer = setTimeout(..., timeout) }]. *)
Definition debounced_call (d : debounced) (args : list value) (st : debounce_state)
  : debounce_state :=
  let h := clearTimeout (timer st) (the_host st) in
  let '(id, h) := setTimeout (mkCallback (d_func d) (d_this d) args) (d_timeout d) h in
  {| timer := Some id; the_host := h |}.

(** What can happen to a debounced function: it is called, time passes, or
    the event loop takes a turn. *)
Inductive action_on : Type :=
| Call (args : list value)
| Elapse (ms : Z)
| Turn.

Definition debounce_step (d : debounced) (st : debounce_state) (a : action_on)
  : debounce_state :=
  match a with
  | Call args => debounced_call d args st
  | Elapse ms => {| timer := timer st; the_host := elapse ms (the_host st) |}
  | Turn => {| timer := timer st; the_host := timers_turn (the_host st) |}
  end.

Definition debounce_run (d : debounced) (acts : list action_on) (st : debounce_state)
  : debounce_state :=
  fold_left (debounce_step d) acts st.

(* ===================================================================== *)
(** * Part III: the properties, as the specification words them *)
(* ===================================================================== *)

Notation chars := list_ascii_of_string (only parsing).

(** ** sizedDecimal: the last [length] characters of zeros and digits *)

Definition zeros (n : nat) : string := string_of_list_ascii (repeat "0"%char n).

Definition last_chars (n : nat) (s : string) : string :=
  string_of_list_ascii (rev (firstn n (rev (list_ascii_of_string s)))).

Definition sizedDecimal_spec (number length : Z) : string :=
  last_chars (Z.to_nat length)
    (zeros (Z.to_nat length) ++ Number_toString number)%string.

(** ** Invalid arguments: a diagnostic and no result *)

(** The computation logs exactly one diagnostic and returns [nothing]. *)
Definition reports_and_returns {A : Type} (nothing : A) (m : M A) (tr : trace)
  : Prop :=
  exists message, m tr = (Normal nothing, tr ++ [ConsoleError message]).

(** ** times: [func] is invoked [n] times and the call returns *)

Definition invoked_n_times (n : Q) (func : value) (tr : trace) : Prop :=
  exists (l : loc) (behaviour : nat -> option error) (k : nat),
    func = VFunction l behaviour /\
    (n == inject_Z (Z.of_nat k))%Q /\
    times (Num n) func tr = (Normal VUndefined, tr ++ repeat (Invoke l) k).

(** ** getRandomNumberInRange: an integer of [ceil(lower), floor(upper)] *)



(** ** removeDuplicates: each value once, in order of first occurrence *)

Definition same_value (x y : value) : Prop := sameValueZero x y = true.

(** [before] is the part of the input that precedes [l]: an element is kept
    when no element before it has the same value. *)
Fixpoint first_occurrences_from (before l : list value) : list value :=
  match l with
  | [] => []
  | x :: r =>
      (if existsb (sameValueZero x) before then [] else [x])
      ++ first_occurrences_from (before ++ [x]) r
  end.

Definition first_occurrences (l : list value) : list value :=
  first_occurrences_from [] l.

(** What SameValueZero compares: two values are the same exactly when their
    keys are equal. *)
Inductive key : Type :=
| KUndefined
| KNull
| KBoolean (b : bool)
| KNaN
| KNumber (n d : Z)
| KString (s : string)
| KObject (l : loc).

Definition key_of (v : value) : key :=
  match v with
  | VUndefined => KUndefined
  | VNull => KNull
  | VBoolean b => KBoolean b
  | VNumber NaN => KNaN
  | VNumber (Num q) => KNumber (Qnum (Qred q)) (Z.pos (Qden (Qred q)))
  | VString s => KString s
  | VStringObject l _ | VArray l _ | VFunction l _ | VObject l => KObject l
  end.

Definition key_eq_dec (a b : key) : {a = b} + {a <> b}.
Proof.
  decide equality;
    auto using Bool.bool_dec, Z.eq_dec, string_dec, Nat.eq_dec.
Defined.

(** ** Case conversion: identifiers in snake case *)

(** [camelToSnakeCase(snakeToCamelCase(s))]. *)
Definition round_trip (s : string) : M value :=
  camel <- snakeToCamelCase (VString s) ;; camelToSnakeCase camel.

(** Lower-case letters and the separators that [snakeToCamelCase] knows. *)
Definition separated_identifier (s : string) : Prop :=
  Forall (fun c => is_lower c = true \/ is_separator c = true) (chars s).

(** Lower-case letters and underscores. *)
Definition snake_identifier (s : string) : Prop :=
  Forall (fun c => is_lower c = true \/ c = "_"%char) (chars s).

(** No upper-case letter and no hyphen. *)
Definition plain_char (c : ascii) : Prop :=
  is_upper c = false /\ is_upper_latin1 c = false /\ c <> "-"%char.

(** ** stringToColor: hash, bytes and hexadecimal digits *)









(** ** chunk: full chunks, except possibly the last *)

Definition full_but_last {T : Type} (size : Z) (res : list (list T)) : Prop :=
  forall k : nat, (S k < List.length res)%nat ->
    Z.of_nat (List.length (nth k res [])) = size.

Definition full_chunks {T : Type} (size : Z) (res : list (list T)) : Prop :=
  Forall (fun c => Z.of_nat (List.length c) = size) res.

(** What keeps holding of the loop state: as long as the index is inside the
    array every chunk is full; once it is past the end all but the last are. *)
Definition chunk_inv {T : Type} (array : list T) (size : Z)
  (st : Z * list (list T)) : Prop :=
  0 <= fst st
  /\ (fst st <= Z.of_nat (List.length array) -> full_chunks size (snd st))
  /\ (Z.of_nat (List.length array) < fst st -> full_but_last size (snd st)).

(** ** getTimeBetween: the largest unit with a nonzero count *)

Definition day_ms : Q := (24 * 60 * 60 * 1000)%Q.

(** The units from the largest to the smallest, with their lengths: a year
    is 365.25 days and a month 30.44 days. *)
Definition spec_units : list (string * Q) :=
  [ ("year", (36525 # 100) * day_ms);
    ("month", (3044 # 100) * day_ms);
    ("day", day_ms);
    ("hour", 60 * 60 * 1000);
    ("minute", 60 * 1000);
    ("second", 1000) ]%Q.

Definition unit_count (timeDiff : Z) (length : Q) : Z :=
  Qfloor (inject_Z timeDiff / length).

Fixpoint largest_nonzero (timeDiff : Z) (us : list (string * Q))
  : option (string * Z) :=
  match us with
  | [] => None
  | (name, length) :: rest =>
      if unit_count timeDiff length =? 0 then largest_nonzero timeDiff rest
      else Some (name, unit_count timeDiff length)
  end.

Definition count_and_unit (count : Z) (name : string) : string :=
  (Number_toString count ++ " " ++ name ++ (if (count =? 1)%Z then "" else "s"))%string.

Definition getTimeBetween_spec (firstDate secondDate : Date) : string :=
  let timeDiff := Z.abs (getTime firstDate - getTime secondDate) in
  match largest_nonzero timeDiff spec_units with
  | Some (name, count) => count_and_unit count name
  | None => count_and_unit 0 "second"
  end.

(** The time differences at which a whole number of 30.44-day months has
    elapsed, within the first year. *)
Definition month_ms : Z := 2630016000.
Definition year_ms : Z := 31557600000.

Definition month_boundary (timeDiff : Z) : Prop :=
  timeDiff mod month_ms = 0 /\ 0 < timeDiff < year_ms.

(** The quotient of the boundary case, in binary64. *)
Module Boundary.
Import PrimFloat.
Definition month_quotient : float := (2630016000 / Binary64.month_interval)%float.
End Boundary.

(** ** sizedDecimal: the number that a string of digits denotes *)





(** ** slugify and the case conversions: the characters of the result *)

(** The characters a slug is made of: [a-z], [0-9], underscore and hyphen. *)
Definition slug_char (c : ascii) : bool :=
  is_lower c || is_digit c || Ascii.eqb c "_" || Ascii.eqb c "-".

Definition count_upper (s : string) : nat := List.length (filter is_upper (chars s)).


(** ** stringToColor: the hash as a polynomial *)


(** ** chunk: where each chunk comes from *)



(** ** debounce: quiet periods *)

Definition is_quiet (a : action_on) : bool :=
  match a with Call _ => false | _ => true end.

Definition calls (acts : list action_on) : nat :=
  List.length (filter (fun a => negb (is_quiet a)) acts).

(** Whether, [waited] milliseconds after the last call, some turn of the
    loop in [acts] comes [after] milliseconds or more after that call. *)
Fixpoint fires_from (waited after : Z) (acts : list action_on) : bool :=
  match acts with
  | [] => false
  | Call _ :: _ => false
  | Elapse ms :: rest => fires_from (waited + Z.max 0 ms) after rest
  | Turn :: rest => (after <=? waited) || fires_from waited after rest
  end.

(** The callback that a call of the debounced function schedules. *)
Definition callback_of (d : debounced) (args : list value) : callback :=
  mkCallback (d_func d) (d_this d) args.

(** At most one timer is pending: the one whose handle [timer] holds, set
    by some call of this debounced function. *)
Definition debounce_inv (d : debounced) (st : debounce_state) : Prop :=
  pending (the_host st) = []
  \/ exists id when args,
       timer st = Some id
       /\ pending (the_host st) = [mkTimer id when (callback_of d args)].

(** A burst: calls, each followed by a quiet period too short for its timer
    to fire. *)
Definition burst (after : Z) (b : list (list value * list action_on)) : bool :=
  forallb (fun c => forallb is_quiet (snd c) && negb (fires_from 0 after (snd c))) b.

Definition burst_actions (b : list (list value * list action_on)) : list action_on :=
  flat_map (fun c => Call (fst c) :: snd c) b.

(* ===================================================================== *)
(** * Part IV: proofs *)
(* ===================================================================== *)

(** ** Strings as lists of code units *)

Lemma chars_inj (s t : string) : chars s = chars t -> s = t.
Proof.
  intros H.
  rewrite <- (string_of_list_ascii_of_string s), <- (string_of_list_ascii_of_string t).
  now rewrite H.
Qed.

Lemma chars_app (s t : string) : chars (s ++ t)%string = chars s ++ chars t.
Proof. induction s as [|c s IH]; simpl; [reflexivity | now rewrite IH]. Qed.

Lemma chars_length (s : string) : List.length (chars s) = String.length s.
Proof. induction s as [|c s IH]; simpl; [reflexivity | now rewrite IH]. Qed.

Lemma chars_substring (a b : nat) (s : string) :
  chars (substring a b s) = firstn b (skipn a (chars s)).
Proof.
  revert a b; induction s as [|c s IH]; intros a b.
  - destruct a, b; reflexivity.
  - destruct a as [|a].
    + destruct b as [|b]; simpl; [reflexivity | now rewrite IH].
    + simpl. apply IH.
Qed.

Lemma chars_zeros (n : nat) : chars (zeros n) = repeat "0"%char n.
Proof. apply list_ascii_of_string_of_list_ascii. Qed.

Lemma String_length_app (s t : string) :
  String_length (s ++ t)%string = String_length s + String_length t.
Proof.
  unfold String_length. rewrite <- !chars_length, chars_app, length_app. lia.
Qed.

Lemma String_length_zeros (n : nat) : String_length (zeros n) = Z.of_nat n.
Proof.
  unfold String_length. now rewrite <- chars_length, chars_zeros, repeat_length.
Qed.

Lemma last_chars_skipn (n : nat) (s : string) :
  chars (last_chars n s) = skipn (String.length s - n) (chars s).
Proof.
  unfold last_chars.
  rewrite list_ascii_of_string_of_list_ascii, firstn_rev, rev_involutive.
  now rewrite chars_length.
Qed.

(** ** sizedDecimal *)

Lemma pre_loop_zeros (n : nat) :
  Nat.iter n (fun pre => (pre ++ "0")%string) "" = zeros n.
Proof.
  induction n as [|n IH]; [reflexivity|].
  apply chars_inj.
  rewrite Nat.iter_succ, IH, chars_app, !chars_zeros.
  simpl. symmetry. apply (repeat_cons n "0"%char).
Qed.

Lemma String_slice_from_skipn (s : string) (start : Z) :
  0 <= start ->
  chars (String_slice_from s start) = skipn (Z.to_nat start) (chars s).
Proof.
  intros Hs.
  unfold String_slice_from, String_slice, relative_index.
  assert (Hlen : 0 <= String_length s) by (unfold String_length; lia).
  destruct (Z.ltb_spec start 0) as [?|_]; [lia|].
  destruct (Z.ltb_spec (String_length s) 0) as [?|_]; [lia|].
  rewrite chars_substring, Z.min_id.
  destruct (Z.le_gt_cases start (String_length s)) as [Hle|Hgt].
  - rewrite Z.min_l by lia.
    apply firstn_all2. rewrite length_skipn, chars_length.
    unfold String_length in *. lia.
  - rewrite Z.min_r by lia.
    replace (Z.to_nat (String_length s - String_length s)) with 0%nat by lia.
    rewrite firstn_O. symmetry. apply skipn_all2.
    rewrite chars_length. unfold String_length in *. lia.
Qed.

Lemma sizedDecimal_chars (number length : Z) :
  chars (sizedDecimal number length) =
  skipn (String.length (Number_toString number))
    (repeat "0"%char (Z.to_nat length) ++ chars (Number_toString number)).
Proof.
  unfold sizedDecimal. rewrite pre_loop_zeros.
  set (t := Number_toString number).
  set (L := Z.to_nat length).
  assert (Hj : String_length (zeros L ++ t)%string = Z.of_nat L + String_length t)
    by now rewrite String_length_app, String_length_zeros.
  assert (Ht : 0 <= String_length t) by (unfold String_length; lia).
  rewrite String_slice_from_skipn by lia.
  rewrite chars_app, chars_zeros.
  destruct (Z.le_gt_cases 0 length) as [Hpos|Hneg].
  - f_equal. rewrite Hj. unfold String_length. lia.
  - replace L with 0%nat by lia. simpl.
    rewrite !skipn_all2; [reflexivity | | ];
      rewrite chars_length; unfold String_length in *; lia.
Qed.

Lemma sizedDecimal_spec_chars (number length : Z) :
  chars (sizedDecimal_spec number length) =
  skipn (String.length (Number_toString number))
    (repeat "0"%char (Z.to_nat length) ++ chars (Number_toString number)).
Proof.
  unfold sizedDecimal_spec.
  rewrite last_chars_skipn, chars_app, chars_zeros.
  f_equal.
  rewrite <- (chars_length (_ ++ _)%string), chars_app, length_app, chars_zeros,
    repeat_length, chars_length.
  lia.
Qed.

(** C6. For every integer [number] and every width [length],
    [sizedDecimal number length] is the last [length] characters of
    [length] zeros followed by the decimal form of [number].  When the
    decimal form is longer than the width, the result is that form with its
    leading characters cut off; when it fits, it is padded with zeros.
    [sizedDecimal(5, 3) = "005"] and [sizedDecimal(12345, 3) = "345"]. *)
Theorem sizedDecimal_last_chars (number length : Z) :
  sizedDecimal number length = sizedDecimal_spec number length
  /\ (0 <= length < String_length (Number_toString number) ->
      exists lost : string,
        Number_toString number = (lost ++ sizedDecimal number length)%string
        /\ String_length (sizedDecimal number length) = length
        /\ String_length lost = String_length (Number_toString number) - length)
  /\ (String_length (Number_toString number) <= length ->
      sizedDecimal number length =
      (zeros (Z.to_nat (length - String_length (Number_toString number)))
       ++ Number_toString number)%string)
  /\ sizedDecimal 5 3 = "005"
  /\ sizedDecimal 12345 3 = "345".
Proof.
  split; [|split; [|split; [|split; reflexivity]]].
  - apply chars_inj. now rewrite sizedDecimal_chars, sizedDecimal_spec_chars.
  - intros [Hlo Hhi].
    pose proof (sizedDecimal_chars number length) as Hc.
    set (t := Number_toString number) in *.
    set (L := Z.to_nat length) in *.
    assert (HL : (L < String.length t)%nat) by (unfold String_length in Hhi; lia).
    rewrite skipn_app, repeat_length in Hc.
    rewrite skipn_all2 in Hc by (rewrite repeat_length; lia).
    simpl in Hc.
    exists (string_of_list_ascii (firstn (String.length t - L) (chars t))).
    split; [|split].
    + apply chars_inj.
      rewrite chars_app, list_ascii_of_string_of_list_ascii, Hc.
      symmetry. apply firstn_skipn.
    + unfold String_length.
      rewrite <- chars_length, Hc, length_skipn, chars_length. lia.
    + unfold String_length.
      rewrite <- chars_length, list_ascii_of_string_of_list_ascii, length_firstn,
        chars_length.
      lia.
  - intros Hfit.
    apply chars_inj. rewrite sizedDecimal_chars, chars_app, chars_zeros.
    set (t := Number_toString number) in *.
    assert (Ht : String_length t = Z.of_nat (String.length t)) by reflexivity.
    replace (Z.to_nat length)
      with (String.length t + Z.to_nat (length - String_length t))%nat by lia.
    rewrite repeat_app, <- app_assoc, skipn_app, repeat_length, Nat.sub_diag.
    rewrite skipn_all2 by (rewrite repeat_length; lia).
    reflexivity.
Qed.

Lemma sizedDecimal_last_chars_witness :
  exists lost : string,
    Number_toString 12345 = (lost ++ sizedDecimal 12345 3)%string
    /\ String_length (sizedDecimal 12345 3) = 3
    /\ String_length lost = String_length (Number_toString 12345) - 3.
Proof.
  apply (proj1 (proj2 (sizedDecimal_last_chars 12345 3))).
  vm_compute. split; [discriminate | reflexivity].
Defined.

(** ** getTimeBetween *)

Lemma Qfloor_div (t : Z) (a b : positive) :
  Qfloor (inject_Z t / (Z.pos a # b)) = (t * Z.pos b) / Z.pos a.
Proof. reflexivity. Qed.

Lemma year_interval_value : year intervals = (8272635494400000 # 262144)%Q.
Proof. vm_compute. reflexivity. Qed.

Lemma month_interval_value : month intervals = (5515543314432001 # 2097152)%Q.
Proof. vm_compute. reflexivity. Qed.

Lemma elapsed_year (t : Z) : year (elapsed t) = t / year_ms.
Proof.
  unfold elapsed; cbn [year]. rewrite year_interval_value, Qfloor_div.
  change 8272635494400000 with (year_ms * 262144).
  apply Z.div_mul_cancel_r; unfold year_ms; lia.
Qed.

Lemma elapsed_month (t : Z) :
  month (elapsed t) = (t * 2097152) / (month_ms * 2097152 + 1).
Proof.
  unfold elapsed; cbn [month]. now rewrite month_interval_value, Qfloor_div.
Qed.

Lemma elapsed_day (t : Z) : day (elapsed t) = t / 86400000.
Proof.
  unfold elapsed; cbn [day].
  change (day intervals) with (86400000 # 1)%Q.
  now rewrite Qfloor_div, Z.mul_1_r.
Qed.

Lemma elapsed_hour (t : Z) : hour (elapsed t) = t / 3600000.
Proof.
  unfold elapsed; cbn [hour].
  change (hour intervals) with (3600000 # 1)%Q.
  now rewrite Qfloor_div, Z.mul_1_r.
Qed.

Lemma elapsed_minute (t : Z) : minute (elapsed t) = t / 60000.
Proof.
  unfold elapsed; cbn [minute].
  change (minute intervals) with (60000 # 1)%Q.
  now rewrite Qfloor_div, Z.mul_1_r.
Qed.

Lemma elapsed_second (t : Z) : second (elapsed t) = t / 1000.
Proof.
  unfold elapsed; cbn [second].
  change (second intervals) with (1000 # 1)%Q.
  now rewrite Qfloor_div, Z.mul_1_r.
Qed.

Lemma spec_count_year (t : Z) : unit_count t ((36525 # 100) * day_ms) = t / year_ms.
Proof.
  unfold unit_count.
  change ((36525 # 100) * day_ms)%Q with (3155760000000 # 100)%Q.
  rewrite Qfloor_div.
  change 3155760000000 with (year_ms * 100).
  apply Z.div_mul_cancel_r; unfold year_ms; lia.
Qed.

Lemma spec_count_month (t : Z) : unit_count t ((3044 # 100) * day_ms) = t / month_ms.
Proof.
  unfold unit_count.
  change ((3044 # 100) * day_ms)%Q with (263001600000 # 100)%Q.
  rewrite Qfloor_div.
  change 263001600000 with (month_ms * 100).
  apply Z.div_mul_cancel_r; unfold month_ms; lia.
Qed.

Lemma spec_count_int (t : Z) (a : positive) :
  unit_count t (Z.pos a # 1) = t / Z.pos a.
Proof. unfold unit_count. now rewrite Qfloor_div, Z.mul_1_r. Qed.

(** Away from the boundaries the rounded month length counts the same months
    as 30.44 days. *)
Lemma month_count_exact (t : Z) :
  0 <= t < year_ms -> t mod month_ms <> 0 \/ t = 0 ->
  (t * 2097152) / (month_ms * 2097152 + 1) = t / month_ms.
Proof.
  unfold year_ms, month_ms. intros Ht Hr.
  pose proof (Z.div_mod t 2630016000 ltac:(lia)) as Hdm.
  pose proof (Z.mod_pos_bound t 2630016000 ltac:(lia)) as Hm.
  set (k := t / 2630016000) in *. set (r := t mod 2630016000) in *.
  assert (Hk : 0 <= k <= 11) by lia.
  symmetry.
  apply (Z.div_unique _ _ k (r * 2097152 - k)); lia.
Qed.

(** At a boundary one month less is counted. *)
Lemma month_count_boundary (t : Z) :
  month_boundary t ->
  (t * 2097152) / (month_ms * 2097152 + 1) = t / month_ms - 1.
Proof.
  unfold month_boundary, year_ms, month_ms. intros [Hr Ht].
  pose proof (Z.div_mod t 2630016000 ltac:(lia)) as Hdm.
  set (k := t / 2630016000) in *. rewrite Hr in Hdm.
  assert (Hk : 1 <= k <= 11) by lia.
  symmetry.
  apply (Z.div_unique _ _ (k - 1) (2630016000 * 2097152 + 1 - k)); lia.
Qed.

Lemma count_and_unit_eq (v : Z) (u : string) :
  (Number_toString v ++ " " ++ u ++ (if negb (v =? 1)%Z then "s" else ""))%string
  = count_and_unit v u.
Proof. unfold count_and_unit. now destruct (v =? 1)%Z. Qed.

(** The source's cascade, over integer quotients. *)
Lemma getTimeBetween_cascade (firstDate secondDate : Date) :
  let t := Z.abs (getTime firstDate - getTime secondDate) in
  let mc := (t * 2097152) / (month_ms * 2097152 + 1) in
  getTimeBetween firstDate secondDate =
    if 0 <? t / year_ms then count_and_unit (t / year_ms) "year"
    else if 0 <? mc then count_and_unit mc "month"
    else if 0 <? t / 86400000 then count_and_unit (t / 86400000) "day"
    else if 0 <? t / 3600000 then count_and_unit (t / 3600000) "hour"
    else if 0 <? t / 60000 then count_and_unit (t / 60000) "minute"
    else count_and_unit (t / 1000) "second".
Proof.
  intros t mc. unfold getTimeBetween. fold t. cbv zeta.
  rewrite elapsed_year, elapsed_month, elapsed_day, elapsed_hour,
    elapsed_minute, elapsed_second.
  fold mc. rewrite !Z.gtb_ltb.
  repeat match goal with
         | |- context [if 0 <? ?x then _ else _] => destruct (0 <? x)
         end; apply count_and_unit_eq.
Qed.

(** The specification's choice, over integer quotients. *)
Lemma getTimeBetween_spec_cascade (firstDate secondDate : Date) :
  let t := Z.abs (getTime firstDate - getTime secondDate) in
  getTimeBetween_spec firstDate secondDate =
    if 0 <? t / year_ms then count_and_unit (t / year_ms) "year"
    else if 0 <? t / month_ms then count_and_unit (t / month_ms) "month"
    else if 0 <? t / 86400000 then count_and_unit (t / 86400000) "day"
    else if 0 <? t / 3600000 then count_and_unit (t / 3600000) "hour"
    else if 0 <? t / 60000 then count_and_unit (t / 60000) "minute"
    else count_and_unit (t / 1000) "second".
Proof.
  intros t. unfold getTimeBetween_spec. fold t.
  assert (Ht : 0 <= t) by (unfold t; lia).
  unfold spec_units, largest_nonzero.
  rewrite spec_count_year, spec_count_month.
  change day_ms with (86400000 # 1)%Q.
  change (60 * 60 * 1000)%Q with (3600000 # 1)%Q.
  change (60 * 1000)%Q with (60000 # 1)%Q.
  change 1000%Q with (1000 # 1)%Q.
  rewrite !spec_count_int.
  pose proof (Z.div_pos t year_ms Ht ltac:(unfold year_ms; lia)).
  pose proof (Z.div_pos t month_ms Ht ltac:(unfold month_ms; lia)).
  pose proof (Z.div_pos t 86400000 Ht ltac:(lia)).
  pose proof (Z.div_pos t 3600000 Ht ltac:(lia)).
  pose proof (Z.div_pos t 60000 Ht ltac:(lia)).
  pose proof (Z.div_pos t 1000 Ht ltac:(lia)).
  repeat match goal with
         | |- context [if ?x =? 0 then _ else _] =>
             destruct (Z.eqb_spec x 0) as [->|?]
         end;
  repeat match goal with
         | |- context [if 0 <? ?x then _ else _] =>
             destruct (Z.ltb_spec 0 x); try lia
         end;
  try reflexivity.
Qed.

(** Off the month boundaries the source and the specification agree. *)
Lemma getTimeBetween_agrees (firstDate secondDate : Date) :
  ~ month_boundary (Z.abs (getTime firstDate - getTime secondDate)) ->
  getTimeBetween firstDate secondDate = getTimeBetween_spec firstDate secondDate.
Proof.
  intros Hnb.
  rewrite getTimeBetween_cascade, getTimeBetween_spec_cascade. cbv zeta.
  set (t := Z.abs _) in *.
  assert (Ht : 0 <= t) by (unfold t; lia).
  destruct (Z.ltb_spec 0 (t / year_ms)) as [Hy|Hy]; [reflexivity|].
  assert (Hlt : t < year_ms).
  { destruct (Z.lt_ge_cases t year_ms) as [?|Hge]; [assumption|].
    pose proof (Z.div_le_mono year_ms t year_ms ltac:(unfold year_ms; lia) Hge) as Hd.
    rewrite Z.div_same in Hd by (unfold year_ms; lia). lia. }
  rewrite month_count_exact; [reflexivity | lia |].
  unfold month_boundary in Hnb.
  destruct (Z.eq_dec (t mod month_ms) 0); [right; lia | now left].
Qed.

(** On a month boundary they differ. *)
Lemma getTimeBetween_differs (firstDate secondDate : Date) :
  month_boundary (Z.abs (getTime firstDate - getTime secondDate)) ->
  getTimeBetween firstDate secondDate <> getTimeBetween_spec firstDate secondDate.
Proof.
  intros Hb.
  rewrite getTimeBetween_cascade, getTimeBetween_spec_cascade. cbv zeta.
  set (t := Z.abs _) in *. clearbody t.
  rewrite (month_count_boundary t Hb).
  destruct Hb as [Hr Ht]. unfold month_ms, year_ms in *.
  pose proof (Z.div_mod t 2630016000 ltac:(lia)) as Hdm. rewrite Hr in Hdm.
  set (k := t / 2630016000) in *.
  assert (Hk : k = 1 \/ k = 2 \/ k = 3 \/ k = 4 \/ k = 5 \/ k = 6 \/ k = 7
               \/ k = 8 \/ k = 9 \/ k = 10 \/ k = 11) by lia.
  clearbody k.
  repeat (destruct Hk as [Hk|Hk]); subst k; subst t; vm_compute; discriminate.
Qed.

Lemma getTimeBetween_symmetric (firstDate secondDate : Date) :
  getTimeBetween firstDate secondDate = getTimeBetween secondDate firstDate.
Proof.
  unfold getTimeBetween.
  replace (Z.abs (getTime secondDate - getTime firstDate))
    with (Z.abs (getTime firstDate - getTime secondDate)) by lia.
  reflexivity.
Qed.

Lemma getTimeBetween_examples (d : Z) :
  getTimeBetween (mkDate d) (mkDate (d + 90000)) = "1 minute"
  /\ getTimeBetween (mkDate d) (mkDate d) = "0 seconds".
Proof.
  split; rewrite getTimeBetween_cascade; cbv zeta; simpl getTime.
  - replace (Z.abs (d - (d + 90000))) with 90000 by lia. reflexivity.
  - replace (Z.abs (d - d)) with 0 by lia. reflexivity.
Qed.

(** C3. The claim holds away from the month boundaries, but not on them:
    a month is meant to last 30.44 days, that is 2630016000 ms, yet the
    product [30.44 * 24 * 60 * 60 * 1000] evaluates in binary64 to
    2630016000 + 2^-21.  For two dates exactly 30.44 days apart the quotient
    [timeDiff / intervals.month] is below 1, the month count is 0, and the
    source answers "30 days" where a month of 30.44 days gives "1 month". *)
Theorem getTimeBetween_month_boundary :
  getTimeBetween (mkDate 0) (mkDate 2630016000) = "30 days"
  /\ getTimeBetween_spec (mkDate 0) (mkDate 2630016000) = "1 month"
  /\ FloatOps.Prim2SF Binary64.month_interval
     = SpecFloat.S754_finite false 5515543314432001 (-21)
  /\ PrimFloat.ltb Boundary.month_quotient PrimFloat.one = true
  /\ month (elapsed 2630016000) = 0
  /\ unit_count 2630016000 ((3044 # 100) * day_ms) = 1.
Proof. repeat split; vm_compute; reflexivity. Qed.

(** ** stringToColor *)


















(** ** removeDuplicates *)

Lemma Qeq_bool_key (p q : Q) :
  Qeq_bool p q = true <->
  KNumber (Qnum (Qred p)) (Z.pos (Qden (Qred p)))
  = KNumber (Qnum (Qred q)) (Z.pos (Qden (Qred q))).
Proof.
  rewrite Qeq_bool_iff. split.
  - intros H. now rewrite (Qred_complete p q H).
  - intros H. injection H as Hn Hd.
    apply Qeq_Qred_iff. unfold Qeq. rewrite Hn, Hd. reflexivity.
Qed.

Lemma sameValueZero_key (x y : value) :
  sameValueZero x y = true <-> key_of x = key_of y.
Proof.
  destruct x as [| |a|[|p]|s|l s|l e|l f|l], y as [| |b|[|q]|t|m t|m e'|m f'|m];
    simpl; try (split; [discriminate | discriminate]); try tauto;
    try apply Qeq_bool_key;
    try (rewrite Nat.eqb_eq; split; congruence).
  - rewrite Bool.eqb_true_iff. split; congruence.
  - rewrite String.eqb_eq. split; congruence.
Qed.

Lemma sameValueZero_refl (x : value) : sameValueZero x x = true.
Proof. now apply sameValueZero_key. Qed.

#[local] Instance same_value_equiv : Equivalence same_value.
Proof.
  unfold same_value. split.
  - intros x. apply sameValueZero_refl.
  - intros x y H. apply sameValueZero_key. symmetry. now apply sameValueZero_key.
  - intros x y z H1 H2. apply sameValueZero_key.
    transitivity (key_of y); now apply sameValueZero_key.
Qed.

Lemma existsb_same_key (x : value) (l : list value) :
  existsb (sameValueZero x) l = true <-> In (key_of x) (map key_of l).
Proof.
  rewrite existsb_exists, in_map_iff. split.
  - intros (y & Hy & Hs). exists y. split; [|assumption].
    symmetry. now apply sameValueZero_key.
  - intros (y & Hk & Hy). exists y. split; [assumption|].
    now apply sameValueZero_key.
Qed.

Lemma existsb_same_ext (l l' : list value) :
  (forall k, In k (map key_of l) <-> In k (map key_of l')) ->
  forall x, existsb (sameValueZero x) l = existsb (sameValueZero x) l'.
Proof.
  intros H x. apply eq_true_iff_eq. rewrite !existsb_same_key. apply H.
Qed.

Lemma Set_add_keys (entries : list value) (v : value) (k : key) :
  In k (map key_of (Set_add entries v)) <->
  In k (map key_of entries) \/ k = key_of v.
Proof.
  unfold Set_add, Set_has.
  destruct (existsb (sameValueZero v) entries) eqn:E.
  - apply existsb_same_key in E. split; [tauto|]. intros [?| ->]; assumption.
  - rewrite map_app, in_app_iff. simpl. intuition congruence.
Qed.

Lemma Set_add_NoDup (entries : list value) (v : value) :
  NoDup (map key_of entries) -> NoDup (map key_of (Set_add entries v)).
Proof.
  intros Hnd. unfold Set_add, Set_has.
  destruct (existsb (sameValueZero v) entries) eqn:E; [assumption|].
  rewrite map_app. simpl. apply NoDup_app; [assumption | repeat constructor; auto |].
  intros k Hk [<-|[]].
  apply existsb_same_key in Hk. congruence.
Qed.

Lemma Set_add_incl (entries : list value) (v x : value) :
  In x (Set_add entries v) -> In x entries \/ x = v.
Proof.
  unfold Set_add. destruct (Set_has entries v); [intros H; left; exact H|].
  rewrite in_app_iff. simpl. intuition congruence.
Qed.

(** The entries of the set, insertion after insertion. *)
Lemma fold_Set_add (l entries before : list value) :
  (forall k, In k (map key_of entries) <-> In k (map key_of before)) ->
  fold_left Set_add l entries = entries ++ first_occurrences_from before l.
Proof.
  revert entries before; induction l as [|x r IH]; intros entries before Hsame.
  - simpl. now rewrite app_nil_r.
  - cbn [fold_left first_occurrences_from].
    rewrite (IH (Set_add entries x) (before ++ [x])).
    + unfold Set_add, Set_has.
      rewrite (existsb_same_ext entries before Hsame x).
      destruct (existsb (sameValueZero x) before); simpl.
      * reflexivity.
      * now rewrite <- app_assoc.
    + intros k. rewrite Set_add_keys, map_app, in_app_iff, Hsame. simpl.
      intuition congruence.
Qed.

Lemma new_Set_first_occurrences (l : list value) : new_Set l = first_occurrences l.
Proof. unfold new_Set, first_occurrences. now rewrite (fold_Set_add l [] []). Qed.

Lemma fold_Set_add_NoDup (l entries : list value) :
  NoDup (map key_of entries) -> NoDup (map key_of (fold_left Set_add l entries)).
Proof.
  revert entries; induction l as [|x r IH]; intros entries H; simpl; [assumption|].
  apply IH, Set_add_NoDup, H.
Qed.

Lemma fold_Set_add_keys (l entries : list value) (k : key) :
  In k (map key_of (fold_left Set_add l entries)) <->
  In k (map key_of entries) \/ In k (map key_of l).
Proof.
  revert entries; induction l as [|x r IH]; intros entries; simpl; [tauto|].
  rewrite IH, Set_add_keys. intuition congruence.
Qed.

Lemma fold_Set_add_incl (l entries : list value) (x : value) :
  In x (fold_left Set_add l entries) -> In x entries \/ In x l.
Proof.
  revert entries; induction l as [|y r IH]; intros entries; simpl; [tauto|].
  intros H. destruct (IH _ H) as [H1|H1]; [|tauto].
  destruct (Set_add_incl _ _ _ H1) as [?| ->]; tauto.
Qed.

Lemma NoDupA_keys (l : list value) : NoDup (map key_of l) -> NoDupA same_value l.
Proof.
  induction l as [|x r IH]; simpl; intros H; [constructor|].
  inversion H as [|? ? Hn Hr]; subst. constructor; [|auto].
  intros HA. apply Hn. apply InA_alt in HA as (y & Hxy & Hy).
  apply in_map_iff. exists y. split; [|assumption].
  symmetry. now apply sameValueZero_key.
Qed.

Lemma filter_same_count (x : value) (l : list value) :
  List.length (filter (sameValueZero x) l)
  = count_occ key_eq_dec (map key_of l) (key_of x).
Proof.
  induction l as [|y r IH]; simpl; [reflexivity|].
  destruct (sameValueZero x y) eqn:E.
  - apply sameValueZero_key in E. rewrite E.
    destruct (key_eq_dec (key_of y) (key_of y)); [|congruence].
    simpl. now rewrite IH, E.
  - destruct (key_eq_dec (key_of y) (key_of x)) as [Heq|_]; [|exact IH].
    symmetry in Heq. apply sameValueZero_key in Heq. congruence.
Qed.

(** An element that is new after the prefix [p] comes right after the
    values that [p] brings in. *)
Lemma first_occurrences_order (p s : list value) (x : value) :
  existsb (sameValueZero x) p = false ->
  exists rest,
    first_occurrences (p ++ x :: s) = first_occurrences p ++ x :: rest.
Proof.
  intros Hnew. rewrite <- !new_Set_first_occurrences. unfold new_Set.
  rewrite fold_left_app. cbn [fold_left]. fold (new_Set p).
  assert (Hkeys : forall k, In k (map key_of (new_Set p)) <-> In k (map key_of p)).
  { intros k. unfold new_Set. rewrite fold_Set_add_keys. simpl. tauto. }
  assert (Hadd : Set_add (new_Set p) x = new_Set p ++ [x]).
  { unfold Set_add, Set_has.
    now rewrite (existsb_same_ext _ _ Hkeys x), Hnew. }
  rewrite Hadd.
  rewrite (fold_Set_add s (new_Set p ++ [x]) (p ++ [x])).
  - rewrite <- app_assoc. simpl. eauto.
  - intros k. rewrite !map_app, !in_app_iff, Hkeys. tauto.
Qed.

(** C8. For every array, [removeDuplicates] logs nothing and returns a new
    array holding the first occurrences of the values of the input, in the
    order of the input: no two of its elements are the same value under
    SameValueZero (primitives by value, objects by identity), every value of
    the input occurs in it exactly once, each of its elements is an element
    of the input, and an element that is new at its place in the input
    follows the values found before it.
    [removeDuplicates([1,2,2,3,1]) = [1,2,3]]. *)
Theorem removeDuplicates_first_occurrences (l : loc) (elems : list value) (tr : trace) :
  removeDuplicates (VArray l elems) tr = (Normal (Some (first_occurrences elems)), tr)
  /\ NoDupA same_value (first_occurrences elems)
  /\ (forall x, In x elems ->
        List.length (filter (sameValueZero x) (first_occurrences elems)) = 1%nat)
  /\ (forall x, In x (first_occurrences elems) -> In x elems)
  /\ (forall p x s, elems = p ++ x :: s -> existsb (sameValueZero x) p = false ->
        exists rest, first_occurrences elems = first_occurrences p ++ x :: rest)
  /\ removeDuplicates
       (VArray l [VNumber (Num 1); VNumber (Num 2); VNumber (Num 2);
                  VNumber (Num 3); VNumber (Num 1)]) tr
     = (Normal (Some [VNumber (Num 1); VNumber (Num 2); VNumber (Num 3)]), tr).
Proof.
  assert (Hnd : NoDup (map key_of (first_occurrences elems))).
  { rewrite <- new_Set_first_occurrences. apply fold_Set_add_NoDup. constructor. }
  split; [|split; [|split; [|split; [|split]]]].
  - unfold removeDuplicates, ret. now rewrite new_Set_first_occurrences.
  - now apply NoDupA_keys.
  - intros x Hx. rewrite filter_same_count.
    apply NoDup_count_occ'; [assumption|].
    rewrite <- new_Set_first_occurrences. apply fold_Set_add_keys.
    right. now apply in_map.
  - intros x Hx. rewrite <- new_Set_first_occurrences in Hx.
    destruct (fold_Set_add_incl _ _ _ Hx) as [[]|]; assumption.
  - intros p x s -> Hnew. now apply first_occurrences_order.
  - reflexivity.
Qed.

(** Two boxed strings with the same text are distinct values; two fractions
    of the same number are one value. *)
Lemma removeDuplicates_first_occurrences_witness :
  removeDuplicates
    (VArray 0%nat
       [VStringObject 1%nat "a"; VNumber (Num (1 # 2)); VStringObject 2%nat "a";
        VNumber (Num (2 # 4)); VStringObject 1%nat "a"]) []
  = (Normal (Some [VStringObject 1%nat "a"; VNumber (Num (1 # 2));
                   VStringObject 2%nat "a"]), []).
Proof.
  exact (proj1 (removeDuplicates_first_occurrences 0%nat
                  [VStringObject 1%nat "a"; VNumber (Num (1 # 2));
                   VStringObject 2%nat "a"; VNumber (Num (2 # 4));
                   VStringObject 1%nat "a"] [])).
Defined.

(** ** camelToSnakeCase and snakeToCamelCase *)

Ltac each_ascii c :=
  destruct c as [[] [] [] [] [] [] [] []]; vm_compute.

Lemma lower_is_plain (c : ascii) : is_lower c = true \/ c = "_"%char -> plain_char c.
Proof.
  intros [H| ->]; [|repeat split; discriminate].
  revert H. unfold plain_char. each_ascii c; intros H;
    try discriminate H; repeat split; discriminate.
Qed.

Lemma upper_of_lower (c : ascii) :
  is_lower c = true ->
  is_upper (upper_char c) = true
  /\ lower_char (upper_char c) = c
  /\ Ascii.eqb (upper_char c) "-" = false
  /\ Ascii.eqb (upper_char c) "_" = false.
Proof.
  each_ascii c; intros H; try discriminate H; repeat split; reflexivity.
Qed.

Lemma toLowerCase_plain (s : string) :
  Forall plain_char (chars s) -> toLowerCase s = s.
Proof.
  induction s as [|c s IH]; simpl; intros H; [reflexivity|].
  inversion H as [|? ? (Hu & Hl & _) Hr]; subst.
  unfold lower_char. rewrite Hu, Hl. simpl. now rewrite IH.
Qed.

(** A group that starts with an underscore becomes the upper-case letter. *)
Lemma camel_group_underscore (d : ascii) :
  is_lower d = true ->
  camel_group (String "_" (String d "")) = String (upper_char d) "".
Proof.
  intros Hd. destruct (upper_of_lower d Hd) as (_ & _ & Hh & Hu).
  unfold camel_group. cbn [toUpperCase remove_first].
  change (upper_char "_") with "_"%char.
  change (Ascii.eqb "_" "-") with false. cbv iota.
  rewrite Hh. cbn [remove_first].
  change (Ascii.eqb "_" "_") with true. reflexivity.
Qed.

Lemma replace_groups_pair (c d : ascii) (r : string) :
  replace_groups (String c (String d r)) =
  if is_separator c && is_lower d
  then (camel_group (String c (String d "")) ++ replace_groups r)%string
  else String c (replace_groups (String d r)).
Proof. reflexivity. Qed.

Lemma replace_upper_groups (s : string) :
  (Forall plain_char (chars s) -> replace_upper (replace_groups s) = s)
  /\ (forall c, Forall plain_char (chars (String c s)) ->
                replace_upper (replace_groups (String c s)) = String c s).
Proof.
  induction s as [|d r [IHr IHdr]].
  - split; [reflexivity|].
    intros c H. inversion H as [|? ? (Hu & _) _]; subst.
    simpl. now rewrite Hu.
  - split; [apply IHdr|].
    intros c H. pose proof H as H'.
    inversion H' as [|? ? (Hu & _ & Hc) Hdr]; subst.
    rewrite replace_groups_pair.
    destruct (is_separator c && is_lower d) eqn:E.
    + apply andb_true_iff in E as [Hsep Hd].
      assert (c = "_"%char) as ->.
      { unfold is_separator in Hsep. apply orb_true_iff in Hsep as [Hs|Hs];
          apply Ascii.eqb_eq in Hs; congruence. }
      rewrite (camel_group_underscore d Hd).
      destruct (upper_of_lower d Hd) as (HU & HL & _).
      cbn [append replace_upper]. rewrite HU.
      cbn [toLowerCase append]. rewrite HL.
      rewrite IHr; [reflexivity|].
      simpl in Hdr. now inversion Hdr.
    + cbn [replace_upper]. rewrite Hu. now rewrite (IHdr d Hdr).
Qed.

Lemma round_trip_plain (s : string) (tr : trace) :
  Forall plain_char (chars s) -> round_trip s tr = (Normal (VString s), tr).
Proof.
  intros H. unfold round_trip, bind, snakeToCamelCase, camelToSnakeCase, ret.
  simpl. rewrite (toLowerCase_plain s H).
  now rewrite (proj1 (replace_upper_groups s) H).
Qed.

(** C7, as stated, fails on a hyphen: the separator comes back as an
    underscore. *)
Lemma round_trip_hyphen_counterexample :
  separated_identifier "hello-world"
  /\ round_trip "hello-world" [] = (Normal (VString "hello_world"), [])
  /\ round_trip "hello-world" [] <> (Normal (VString "hello-world"), []).
Proof.
  split; [|split].
  - unfold separated_identifier. simpl.
    repeat (apply Forall_cons; [first [left; reflexivity | right; reflexivity]|]).
    apply Forall_nil.
  - reflexivity.
  - vm_compute. discriminate.
Qed.

(** C7, amended. For every string made of lower-case letters [a-z] and
    underscores only, [camelToSnakeCase(snakeToCamelCase(s)) = s], with no
    diagnostic; [camelToSnakeCase("helloWorld") = "hello_world"] and
    [snakeToCamelCase("hello_world") = "helloWorld"]. *)
Theorem snake_round_trip (s : string) (tr : trace) :
  snake_identifier s ->
  round_trip s tr = (Normal (VString s), tr)
  /\ camelToSnakeCase (VString "helloWorld") tr = (Normal (VString "hello_world"), tr)
  /\ snakeToCamelCase (VString "hello_world") tr = (Normal (VString "helloWorld"), tr).
Proof.
  intros H. split; [|split; reflexivity].
  apply round_trip_plain.
  unfold snake_identifier in H.
  eapply Forall_impl; [|exact H]. apply lower_is_plain.
Qed.

Lemma snake_round_trip_witness :
  round_trip "a__long_name_" [] = (Normal (VString "a__long_name_"), []).
Proof.
  apply (snake_round_trip "a__long_name_" []).
  unfold snake_identifier. simpl.
  repeat (apply Forall_cons; [first [left; reflexivity | right; reflexivity]|]).
  apply Forall_nil.
Defined.

(** ** chunk *)

Section ChunkProofs.

Context {T : Type}.
Implicit Types (array : list T) (result res : list (list T)) (size i : Z).

Lemma Array_slice_window array i size :
  0 <= i -> 0 <= size ->
  Array_slice array i (i + size) = firstn (Z.to_nat size) (skipn (Z.to_nat i) array).
Proof.
  intros Hi Hs. unfold Array_slice, relative_index.
  destruct (Z.ltb_spec i 0); [lia|].
  destruct (Z.ltb_spec (i + size) 0); [lia|].
  set (len := Z.of_nat (List.length array)).
  destruct (Z.le_gt_cases len i) as [Hout|Hin].
  - rewrite (skipn_all2 (n := Z.to_nat i)) by lia.
    rewrite Z.min_r by lia. rewrite skipn_all2 by lia.
    now rewrite !firstn_nil.
  - rewrite (Z.min_l i) by lia.
    destruct (Z.le_gt_cases (i + size) len).
    + rewrite Z.min_l by lia. f_equal. lia.
    + rewrite Z.min_r by lia.
      rewrite !firstn_all2; [reflexivity | |]; rewrite length_skipn; lia.
Qed.

Lemma slice_then_rest array i size :
  0 <= i -> 0 <= size ->
  Array_slice array i (i + size) ++ skipn (Z.to_nat (i + size)) array
  = skipn (Z.to_nat i) array.
Proof.
  intros Hi Hs. rewrite Array_slice_window by assumption.
  replace (Z.to_nat (i + size)) with (Z.to_nat size + Z.to_nat i)%nat by lia.
  rewrite <- skipn_skipn. apply firstn_skipn.
Qed.

Lemma slice_full array i size :
  0 <= i -> 0 <= size -> i + size <= Z.of_nat (List.length array) ->
  Z.of_nat (List.length (Array_slice array i (i + size))) = size.
Proof.
  intros Hi Hs Hfit. rewrite Array_slice_window by assumption.
  rewrite length_firstn, length_skipn. lia.
Qed.

Lemma full_chunks_but_last size result :
  full_chunks size result -> full_but_last size result.
Proof.
  intros H k Hk. unfold full_chunks in H. rewrite Forall_forall in H.
  apply H, nth_In. lia.
Qed.

Lemma full_but_last_snoc size result (c : list T) :
  full_chunks size result -> full_but_last size (result ++ [c]).
Proof.
  intros H k Hk. rewrite length_app in Hk. simpl in Hk.
  rewrite app_nth1 by lia.
  unfold full_chunks in H. rewrite Forall_forall in H.
  apply H, nth_In. lia.
Qed.

Lemma chunk_inv_init array size : chunk_inv array size (0, []).
Proof.
  split; [simpl; lia|]. split; intros _.
  - constructor.
  - intros k Hk. simpl in Hk. lia.
Qed.

(** The invariant survives a turn of the loop. *)
Lemma chunk_inv_step array size st st' :
  1 <= size -> chunk_inv array size st ->
  chunk_step array size st = Some st' -> chunk_inv array size st'.
Proof.
  intros Hsize (Hi & Hin & Hout) Hstep. destruct st as [i result].
  unfold chunk_step in Hstep. simpl in *.
  destruct (Z.ltb_spec i (Z.of_nat (List.length array))) as [Hlt|]; [|discriminate].
  injection Hstep as <-. unfold chunk_inv. simpl.
  assert (Hfull : full_chunks size result) by (apply Hin; lia).
  split; [lia|]. split.
  - intros Hfit. apply Forall_app. split; [assumption|].
    constructor; [|constructor]. apply slice_full; lia.
  - intros _. now apply full_but_last_snoc.
Qed.

Lemma chunk_inv_exit array size st :
  chunk_inv array size st -> chunk_step array size st = None ->
  full_but_last size (snd st).
Proof.
  intros (Hi & Hin & Hout) Hstep. destruct st as [i result].
  unfold chunk_step in Hstep. simpl in *.
  destruct (Z.ltb_spec i (Z.of_nat (List.length array))) as [|Hge]; [discriminate|].
  destruct (Z.eq_dec i (Z.of_nat (List.length array))) as [Heq|Hne].
  - apply full_chunks_but_last, Hin. lia.
  - apply Hout. lia.
Qed.


Lemma chunk_loop_full (fuel : nat) array size st res :
  1 <= size -> chunk_inv array size st ->
  chunk_loop fuel array size st = Some res -> full_but_last size res.
Proof.
  intros Hsize. revert st.
  induction fuel as [|fuel IH]; intros st Hinv Hrun; simpl in Hrun;
    destruct (chunk_step array size st) as [st'|] eqn:Hstep;
    try discriminate.
  - injection Hrun as <-. now apply (chunk_inv_exit array).
  - apply (IH st'); [|assumption]. now apply (chunk_inv_step array size st).
  - injection Hrun as <-. now apply (chunk_inv_exit array).
Qed.

Lemma chunk_loop_concat (fuel : nat) array size st res :
  1 <= size -> 0 <= fst st ->
  chunk_loop fuel array size st = Some res ->
  concat res = concat (snd st) ++ skipn (Z.to_nat (fst st)) array.
Proof.
  intros Hsize. revert st.
  assert (Hexit : forall st,
             chunk_step array size st = None ->
             concat (snd st) = concat (snd st) ++ skipn (Z.to_nat (fst st)) array).
  { intros [i result] Hstep. unfold chunk_step in Hstep. simpl.
    destruct (Z.ltb_spec i (Z.of_nat (List.length array))); [discriminate|].
    rewrite skipn_all2 by lia. now rewrite app_nil_r. }
  induction fuel as [|fuel IH]; intros st Hi Hrun; simpl in Hrun;
    destruct (chunk_step array size st) as [st'|] eqn:Hstep;
    try discriminate.
  - injection Hrun as <-. now apply Hexit.
  - destruct st as [i result]. unfold chunk_step in Hstep. simpl in Hi |- *.
    destruct (Z.ltb_spec i (Z.of_nat (List.length array))); [|discriminate].
    injection Hstep as <-.
    apply IH in Hrun; [|simpl; lia]. rewrite Hrun. simpl.
    rewrite concat_app. simpl.
    rewrite app_nil_r, <- app_assoc. f_equal.
    apply slice_then_rest; lia.
  - injection Hrun as <-. now apply Hexit.
Qed.

Lemma chunk_from_turn array size (Hsize : 1 <= size) i result :
  chunk_from array size Hsize i result =
  if i <? Z.of_nat (List.length array)
  then chunk_from array size Hsize (i + size)
         (result ++ [Array_slice array i (i + size)])
  else result.
Proof.
  rewrite chunk_from_equation_1.
  destruct (Z_lt_dec i (Z.of_nat (List.length array))); simpl;
    destruct (Z.ltb_spec i (Z.of_nat (List.length array))); try lia; reflexivity.
Qed.

(** With enough fuel the loop returns what the total function computes. *)
Lemma chunk_loop_total (fuel : nat) array size (Hsize : 1 <= size) i result :
  Z.of_nat (List.length array) - i <= Z.of_nat fuel ->
  chunk_loop fuel array size (i, result) = Some (chunk_from array size Hsize i result).
Proof.
  revert i result.
  induction fuel as [|fuel IH]; intros i result Hfuel;
    rewrite chunk_from_turn; simpl; unfold chunk_step;
    destruct (Z.ltb_spec i (Z.of_nat (List.length array))); try reflexivity.
  - lia.
  - apply IH. lia.
Qed.

Lemma chunk_loop_more_fuel (fuel fuel' : nat) array size st res :
  (fuel <= fuel')%nat ->
  chunk_loop fuel array size st = Some res ->
  chunk_loop fuel' array size st = Some res.
Proof.
  revert fuel' st.
  induction fuel as [|fuel IH]; intros fuel' st Hle Hrun; simpl in Hrun;
    destruct (chunk_step array size st) as [st'|] eqn:Hstep; try discriminate.
  - destruct fuel'; simpl; now rewrite Hstep.
  - destruct fuel' as [|fuel']; [lia|]. simpl. rewrite Hstep.
    apply IH; [lia | assumption].
  - destruct fuel'; simpl; now rewrite Hstep.
Qed.

Lemma chunk_returns_unique array size res res' :
  chunk_returns array size res -> chunk_returns array size res' -> res = res'.
Proof.
  intros [f Hf] [f' Hf']. unfold chunk_fuel in *.
  apply (chunk_loop_more_fuel f (Nat.max f f')) in Hf; [|lia].
  apply (chunk_loop_more_fuel f' (Nat.max f f')) in Hf'; [|lia].
  congruence.
Qed.

(** With a size below 1 the index never moves forward. *)
Lemma chunk_loop_diverges (fuel : nat) array size i result :
  size <= 0 -> array <> [] -> i <= 0 ->
  chunk_loop fuel array size (i, result) = None.
Proof.
  intros Hsize Hne. revert i result.
  assert (Hlen : 0 < Z.of_nat (List.length array))
    by (destruct array; [congruence | simpl; lia]).
  induction fuel as [|fuel IH]; intros i result Hi; simpl; unfold chunk_step;
    destruct (Z.ltb_spec i (Z.of_nat (List.length array))); try lia;
    [reflexivity|].
  apply IH. lia.
Qed.

End ChunkProofs.

(** C2, as stated, fails for a size below 1: [chunk([1], 0)] never leaves
    its loop, so it returns nothing that could be concatenated. *)
Lemma chunk_size_zero_counterexample :
  (forall fuel, chunk_fuel fuel [1] 0 = None)
  /\ ~ (exists res, chunk_returns [1] 0 res /\ concat res = [1]).
Proof.
  assert (H : forall fuel, chunk_fuel fuel [1] 0 = None).
  { intros fuel. apply chunk_loop_diverges; [lia | discriminate | lia]. }
  split; [exact H|].
  intros (res & [fuel Hrun] & _). rewrite H in Hrun. discriminate.
Qed.

(** C2, amended. For every array and every integer [size], if [size >= 1]
    or the array is empty then [chunk(array, size)] returns, and returns one
    result only; the concatenation of its chunks, in order, is the array,
    and every chunk except possibly the last has exactly [size] elements.
    Under [size >= 1] the result is the value of the total function [chunk].
    [chunk([1,2,3,4,5], 2)] returns [[1,2],[3,4],[5]]. *)
Theorem chunk_concat_full {T : Type} (array : list T) (size : Z) :
  1 <= size \/ array = [] ->
  (exists res,
      chunk_returns array size res
      /\ (forall res', chunk_returns array size res' -> res' = res)
      /\ (forall Hsize : 1 <= size, res = chunk array size Hsize)
      /\ concat res = array
      /\ full_but_last size res)
  /\ chunk_returns [1; 2; 3; 4; 5] 2 [[1; 2]; [3; 4]; [5]].
Proof.
  intros Hdom. split; [|exists 3%nat; reflexivity].
  destruct Hdom as [Hsize| ->].
  - assert (Hret : chunk_returns array size (chunk array size Hsize)).
    { exists (List.length array). apply chunk_loop_total. lia. }
    exists (chunk array size Hsize).
    split; [exact Hret|]. split; [|split; [|split]].
    + intros res Hres. exact (chunk_returns_unique _ _ _ _ Hres Hret).
    + intros Hsize'. apply (chunk_returns_unique array size); [exact Hret|].
      exists (List.length array). apply chunk_loop_total. lia.
    + destruct Hret as [fuel Hrun].
      apply chunk_loop_concat in Hrun; [|assumption | simpl; lia].
      exact Hrun.
    + destruct Hret as [fuel Hrun].
      apply (chunk_loop_full fuel array size (0, [])); [assumption | | exact Hrun].
      apply chunk_inv_init.
  - assert (Hret : chunk_returns (@nil T) size []) by (exists 0%nat; reflexivity).
    exists []. split; [exact Hret|]. split; [|split; [|split]].
    + intros res Hres. exact (chunk_returns_unique _ _ _ _ Hres Hret).
    + intros Hsize. apply (chunk_returns_unique [] size); [exact Hret|].
      exists 0%nat. apply chunk_loop_total. simpl. lia.
    + reflexivity.
    + intros k Hk. simpl in Hk. lia.
Qed.

Lemma chunk_concat_full_witness :
  exists res,
    chunk_returns [1; 2; 3; 4; 5] 2 res
    /\ concat res = [1; 2; 3; 4; 5]
    /\ full_but_last 2 res.
Proof.
  destruct (chunk_concat_full [1; 2; 3; 4; 5] 2) as [(res & Hr & _ & _ & Hc & Hf) _].
  - left. lia.
  - exists res. repeat split; assumption.
Defined.



(** ** Array lengths *)

Lemma Qred_inject_Z (z : Z) : Qred (inject_Z z) = inject_Z z.
Proof.
  unfold Qred, inject_Z. cbn [Qnum Qden].
  pose proof (Z.ggcd_gcd z 1) as Hg.
  pose proof (Z.ggcd_correct_divisors z 1) as Hd.
  destruct (Z.ggcd z 1) as [g [a b]]. simpl in *.
  rewrite Z.gcd_1_r in Hg. subst g. destruct Hd as [Ha Hb].
  replace a with z by lia. replace b with 1 by lia. reflexivity.
Qed.

(** The valid array lengths are the integers of [0, 2^32 - 1]. *)
Lemma array_length_spec (q : Q) (k : nat) :
  array_length (Num q) = Some k <->
  (q == inject_Z (Z.of_nat k))%Q /\ Z.of_nat k < 2 ^ 32.
Proof.
  unfold array_length. split.
  - destruct (Z.eqb_spec (Z.pos (Qden (Qred q))) 1) as [Hden|]; [|discriminate].
    destruct (Z.leb_spec 0 (Qnum (Qred q))); [|discriminate].
    destruct (Z.ltb_spec (Qnum (Qred q)) (2 ^ 32)); [|discriminate].
    simpl. intros [= <-]. split; [|lia].
    transitivity (Qred q); [symmetry; apply Qred_correct|].
    unfold Qeq, inject_Z. cbn [Qnum Qden].
    rewrite Hden. lia.
  - intros [Hq Hk]. rewrite (Qred_complete _ _ Hq), Qred_inject_Z.
    cbn [inject_Z Qnum Qden].
    destruct (Z.leb_spec 0 (Z.of_nat k)); [|lia].
    destruct (Z.ltb_spec (Z.of_nat k) (2 ^ 32)); [|lia].
    simpl. f_equal. lia.
Qed.

(** ** Computations *)

Lemma bind_normal {A B : Type} (m : M A) (k : A -> M B) (tr : trace) (a : A)
  (tr' : trace) :
  m tr = (Normal a, tr') -> bind m k tr = k a tr'.
Proof. intros H. unfold bind. now rewrite H. Qed.

Lemma bind_throw {A B : Type} (m : M A) (k : A -> M B) (tr : trace) (e : error)
  (tr' : trace) :
  m tr = (Throw e, tr') -> bind m k tr = (Throw e, tr').
Proof. intros H. unfold bind. now rewrite H. Qed.

(** ** times *)

Lemma invocations_app (l : loc) (tr tr' : trace) :
  invocations l (tr ++ tr') = (invocations l tr + invocations l tr')%nat.
Proof. unfold invocations. now rewrite filter_app, length_app. Qed.

Lemma invocations_diagnostic (l : loc) (tr : trace) (message : string) :
  invocations l (tr ++ [ConsoleError message]) = invocations l tr.
Proof. rewrite invocations_app. unfold invocations at 2. simpl. lia. Qed.

Lemma invocations_invoke (l : loc) (tr : trace) :
  invocations l (tr ++ [Invoke l]) = S (invocations l tr).
Proof.
  rewrite invocations_app. unfold invocations at 2. simpl.
  rewrite Nat.eqb_refl. simpl. lia.
Qed.

(** [forEach] over [k] elements calls [func] [k] times when no call throws. *)
Lemma forEach_calls (l : loc) (behaviour : nat -> option error) (k : nat) (tr : trace) :
  (forall j, (j < k)%nat -> behaviour (invocations l tr + j)%nat = None) ->
  forEach (repeat VUndefined k) (fun _ => call (VFunction l behaviour) ;; ret tt) tr
  = (Normal tt, tr ++ repeat (Invoke l) k).
Proof.
  revert tr; induction k as [|k IH]; intros tr Hb.
  - simpl. unfold ret. now rewrite app_nil_r.
  - cbn [repeat forEach]. unfold bind at 1. unfold bind at 1. unfold call.
    rewrite <- (Nat.add_0_r (invocations l tr)), (Hb 0%nat) by lia.
    unfold ret at 1.
    rewrite IH.
    + now rewrite <- app_assoc.
    + intros j Hj. rewrite invocations_invoke.
      replace (S (invocations l tr) + j)%nat with (invocations l tr + S j)%nat by lia.
      apply Hb. lia.
Qed.

Lemma times_valid (q : Q) (l : loc) (behaviour : nat -> option error)
  (k : nat) (tr : trace) :
  (q == inject_Z (Z.of_nat k))%Q -> Z.of_nat k < 2 ^ 32 ->
  (forall j, (j < k)%nat -> behaviour (invocations l tr + j)%nat = None) ->
  times (Num q) (VFunction l behaviour) tr
  = (Normal VUndefined, tr ++ repeat (Invoke l) k).
Proof.
  intros Hq Hk Hb. unfold times. cbn [isNaN typeof].
  rewrite String.eqb_refl. cbn [negb].
  rewrite (bind_normal _ _ tr (repeat VUndefined k) tr).
  - now rewrite (bind_normal _ _ _ _ _ (forEach_calls l behaviour k tr Hb)).
  - unfold lift, Array_from_Array.
    now rewrite (proj2 (array_length_spec q k) (conj Hq Hk)).
Qed.

Lemma times_invalid_length (n : number) (func : value) (tr : trace) :
  isNaN n = false -> typeof func = "function" -> array_length n = None ->
  times n func tr = (Throw (RangeError "Invalid array length"), tr).
Proof.
  intros Hn Hf Hlen. unfold times. rewrite Hn, Hf.
  rewrite String.eqb_refl. cbn [negb].
  apply bind_throw. unfold lift, Array_from_Array. now rewrite Hlen.
Qed.

Lemma times_not_a_number (func : value) (tr : trace) :
  times NaN func tr
  = (Normal VUndefined, tr ++ [ConsoleError "times to run must be specified"]).
Proof. reflexivity. Qed.

Lemma times_not_callable (n : number) (func : value) (tr : trace) :
  isNaN n = false -> typeof func <> "function" ->
  times n func tr
  = (Normal VUndefined,
     tr ++ [ConsoleError
              ("func must be a valid function, " ++ typeof func ++ " provided")%string]).
Proof.
  intros Hn Hf. unfold times. rewrite Hn.
  destruct (String.eqb_spec (typeof func) "function") as [|_]; [contradiction|].
  reflexivity.
Qed.

Lemma times_invalid (n : number) (func : value) (tr : trace) :
  isNaN n = true \/ typeof func <> "function" ->
  reports_and_returns VUndefined (times n func) tr.
Proof.
  intros Hbad. destruct n as [|q].
  - eexists. apply times_not_a_number.
  - destruct Hbad as [Hn|Hf]; [discriminate|].
    eexists. now apply times_not_callable.
Qed.

(** C4, as stated, fails for a number that is not an array length: with
    [n = -1], or [n = 2^32], and a callable [func], [times] emits no
    diagnostic and does not return; it completes abruptly with a RangeError
    before any invocation. *)
Lemma times_negative_counterexample :
  let func := VFunction 0%nat (fun _ => None) in
  isNaN (Num (-1)) = false
  /\ typeof func = "function"
  /\ times (Num (-1)) func [] = (Throw (RangeError "Invalid array length"), [])
  /\ times (Num 4294967296) func [] = (Throw (RangeError "Invalid array length"), [])
  /\ ~ invoked_n_times (-1) func []
  /\ ~ reports_and_returns VUndefined (times (Num (-1)) func) [].
Proof.
  cbv zeta. repeat split; try reflexivity.
  - intros (l & behaviour & k & _ & _ & Hrun). discriminate Hrun.
  - intros (message & Hrun). discriminate Hrun.
Qed.

(** C4, amended. If [n] is an integer of [0, 2^32 - 1] and [func] is
    callable and returns normally each time, [times(n, func)] invokes
    [func] exactly [n] times, one after the other, logs nothing and returns
    [undefined].  If [n] is any other number than [NaN] and [func] is
    callable, it throws a RangeError without invoking [func].  If [n] is
    [NaN], or [func] is not callable, it logs one diagnostic, returns
    [undefined] and invokes nothing. *)
Theorem times_invokes (n : number) (func : value) (tr : trace) :
  (forall q l behaviour k,
      n = Num q -> func = VFunction l behaviour ->
      (q == inject_Z (Z.of_nat k))%Q -> Z.of_nat k < 2 ^ 32 ->
      (forall j, (j < k)%nat -> behaviour (invocations l tr + j)%nat = None) ->
      times n func tr = (Normal VUndefined, tr ++ repeat (Invoke l) k)
      /\ invocations l (snd (times n func tr)) = (invocations l tr + k)%nat)
  /\ (forall q,
        n = Num q -> typeof func = "function" ->
        (forall k : nat, Z.of_nat k < 2 ^ 32 -> ~ (q == inject_Z (Z.of_nat k))%Q) ->
        times n func tr = (Throw (RangeError "Invalid array length"), tr))
  /\ (isNaN n = true \/ typeof func <> "function" ->
      reports_and_returns VUndefined (times n func) tr
      /\ forall l, invocations l (snd (times n func tr)) = invocations l tr).
Proof.
  split; [|split].
  - intros q l behaviour k -> -> Hq Hk Hb.
    rewrite (times_valid q l behaviour k tr Hq Hk Hb). split; [reflexivity|].
    cbn [snd]. rewrite invocations_app. f_equal.
    unfold invocations. clear. induction k as [|k IH]; simpl; [reflexivity|].
    rewrite Nat.eqb_refl. simpl. now rewrite IH.
  - intros q -> Hf Hnot. apply times_invalid_length; [reflexivity | assumption |].
    destruct (array_length (Num q)) as [k|] eqn:E; [|reflexivity].
    apply array_length_spec in E as [Hq Hk]. now destruct (Hnot k Hk).
  - intros Hbad.
    pose proof (times_invalid n func tr Hbad) as H.
    split; [exact H|].
    intros l. destruct H as [message ->]. apply invocations_diagnostic.
Qed.

Lemma times_invokes_witness :
  times (Num 3) (VFunction 7%nat (fun _ => None)) []
  = (Normal VUndefined, [Invoke 7%nat; Invoke 7%nat; Invoke 7%nat]).
Proof.
  apply (proj1 (times_invokes (Num 3) (VFunction 7%nat (fun _ => None)) [])
           3%Q 7%nat (fun _ => None) 3%nat eq_refl eq_refl).
  - reflexivity.
  - reflexivity.
  - intros j _. reflexivity.
Defined.

(** ** getRandomNumberInRange *)







(** ** Invalid arguments *)










(* ===================================================================== *)
(** * Part V: further properties of the functions *)
(* ===================================================================== *)

(** ** sizedDecimal: width and value *)










(** X1. The result of [sizedDecimal] always has exactly [length] characters
    (none when [length] is negative), whatever the number. *)
Theorem sizedDecimal_width (number length : Z) :
  String_length (sizedDecimal number length) = Z.max 0 length.
Proof.
  unfold String_length.
  rewrite <- chars_length, sizedDecimal_chars, length_skipn, length_app,
    repeat_length, chars_length.
  lia.
Qed.



(** ** times: a callee that throws *)

Lemma forEach_calls_throw (l : loc) (behaviour : nat -> option error)
  (k m : nat) (e : error) (tr : trace) :
  (m < k)%nat ->
  (forall j, (j < m)%nat -> behaviour (invocations l tr + j)%nat = None) ->
  behaviour (invocations l tr + m)%nat = Some e ->
  forEach (repeat VUndefined k) (fun _ => call (VFunction l behaviour) ;; ret tt) tr
  = (Throw e, tr ++ repeat (Invoke l) (S m)).
Proof.
  revert m tr; induction k as [|k IH]; intros m tr Hm Hok Hthrow; [lia|].
  cbn [repeat forEach].
  destruct m as [|m].
  - apply bind_throw. apply bind_throw. unfold call.
    rewrite Nat.add_0_r in Hthrow. now rewrite Hthrow.
  - rewrite (bind_normal _ _ tr tt (tr ++ [Invoke l])).
    + rewrite (IH m (tr ++ [Invoke l])).
      * now rewrite <- app_assoc.
      * lia.
      * intros j Hj. rewrite invocations_invoke.
        replace (S (invocations l tr) + j)%nat
          with (invocations l tr + S j)%nat by lia.
        apply Hok. lia.
      * rewrite invocations_invoke.
        replace (S (invocations l tr) + m)%nat
          with (invocations l tr + S m)%nat by lia.
        exact Hthrow.
    + rewrite (bind_normal _ _ tr VUndefined (tr ++ [Invoke l])); [reflexivity|].
      unfold call. rewrite <- (Nat.add_0_r (invocations l tr)).
      rewrite (Hok 0%nat) by lia. reflexivity.
Qed.

(** X3. When a call of [func] throws, [times] stops there: if the first
    [m] calls return and call number [m + 1] (of the [n] requested) throws
    [e], then [times(n, func)] throws [e] after exactly [m + 1] invocations
    and logs nothing. *)
Theorem times_callee_throws (q : Q) (l : loc) (behaviour : nat -> option error)
  (k m : nat) (e : error) (tr : trace) :
  (q == inject_Z (Z.of_nat k))%Q -> Z.of_nat k < 2 ^ 32 -> (m < k)%nat ->
  (forall j, (j < m)%nat -> behaviour (invocations l tr + j)%nat = None) ->
  behaviour (invocations l tr + m)%nat = Some e ->
  times (Num q) (VFunction l behaviour) tr
  = (Throw e, tr ++ repeat (Invoke l) (S m)).
Proof.
  intros Hq Hk Hm Hok Hthrow. unfold times. cbn [isNaN typeof].
  rewrite String.eqb_refl. cbn [negb].
  rewrite (bind_normal _ _ tr (repeat VUndefined k) tr).
  - apply bind_throw. now apply forEach_calls_throw.
  - unfold lift, Array_from_Array.
    now rewrite (proj2 (array_length_spec q k) (conj Hq Hk)).
Qed.

Lemma times_callee_throws_witness :
  times (Num 5)
    (VFunction 2%nat (fun i => if Nat.eqb i 1 then Some (Thrown 9) else None)) []
  = (Throw (Thrown 9), [Invoke 2%nat; Invoke 2%nat]).
Proof.
  apply (times_callee_throws 5 2%nat
           (fun i => if Nat.eqb i 1 then Some (Thrown 9) else None)
           5%nat 1%nat (Thrown 9) []).
  - reflexivity.
  - reflexivity.
  - lia.
  - intros j Hj. replace j with 0%nat by lia. reflexivity.
  - reflexivity.
Defined.

(** ** getRandomNumberInRange: which draw gives which integer *)







(** ** shorten *)

Lemma ellipsis_dots (k : nat) :
  chars (String.concat "" (map (fun _ : value => ".") (repeat VUndefined k)))
  = repeat "."%char k.
Proof.
  induction k as [|k IH]; [reflexivity|].
  destruct k as [|k]; [reflexivity|].
  cbn [repeat map String.concat] in *.
  rewrite !chars_app. simpl. f_equal. exact IH.
Qed.

Lemma String_slice_prefix (s : string) (t : Z) :
  0 <= t ->
  chars (String_slice s 0 t) = firstn (Z.to_nat t) (chars s).
Proof.
  intros Ht. unfold String_slice, relative_index.
  assert (Hlen : 0 <= String_length s) by (unfold String_length; lia).
  change (0 <? 0) with false. cbv iota.
  destruct (Z.ltb_spec t 0); [lia|].
  rewrite (Z.min_l 0) by lia. rewrite Z.sub_0_r, chars_substring.
  change (Z.to_nat 0) with 0%nat. rewrite skipn_O.
  destruct (Z.le_gt_cases t (String_length s)).
  - now rewrite Z.min_l by lia.
  - rewrite Z.min_r by lia.
    rewrite !firstn_all2; [reflexivity | |]; rewrite chars_length;
      unfold String_length in *; lia.
Qed.

Lemma String_slice_drop_end (s : string) (t : Z) :
  t < 0 ->
  chars (String_slice s 0 t) = firstn (Z.to_nat (String_length s + t)) (chars s).
Proof.
  intros Ht. unfold String_slice, relative_index.
  assert (Hlen : 0 <= String_length s) by (unfold String_length; lia).
  change (0 <? 0) with false. cbv iota.
  destruct (Z.ltb_spec t 0); [|lia].
  rewrite (Z.min_l 0) by lia. rewrite Z.sub_0_r, chars_substring.
  change (Z.to_nat 0) with 0%nat. rewrite skipn_O.
  f_equal. lia.
Qed.

Lemma shorten_cut (text : value) (s : string) (length ellipsisCount : option number)
  (q : Q) (k : nat) (tr : trace) :
  string_like text = Some s ->
  default (Num 10) length = Num q ->
  array_length (default (Num 3) ellipsisCount) = Some k ->
  (q < inject_Z (String_length s))%Q ->
  shorten text length ellipsisCount tr
  = (Normal (VString
       (String_slice s 0 (ToIntegerOrInfinity (Num q))
        ++ String.concat "" (map (fun _ : value => ".") (repeat VUndefined k)))%string),
     tr).
Proof.
  intros Hs Hq Hk Hlong. unfold shorten. rewrite Hs, Hq.
  destruct (default (Num 3) ellipsisCount) as [|e] eqn:He; [discriminate|].
  cbn [isNaN orb number_leb].
  destruct (Qle_bool (inject_Z (String_length s)) q) eqn:Hle.
  - apply Qle_bool_iff in Hle. exfalso. apply (Qlt_irrefl q).
    eapply Qlt_le_trans; eassumption.
  - unfold bind, lift, Array_from_Array. now rewrite Hk.
Qed.

(** X6. A text that already fits is returned as it is: when the text has at
    most [length] characters (10 by default) and [ellipsisCount] is not
    [NaN], [shorten] returns the very value it was given (a boxed string
    stays boxed), logs nothing and never throws, even for an ellipsis count
    such as -1. *)
Theorem shorten_fits (text : value) (s : string) (length ellipsisCount : option number)
  (q : Q) (tr : trace) :
  string_like text = Some s ->
  default (Num 10) length = Num q ->
  isNaN (default (Num 3) ellipsisCount) = false ->
  (inject_Z (String_length s) <= q)%Q ->
  shorten text length ellipsisCount tr = (Normal text, tr).
Proof.
  intros Hs Hq He Hfit. unfold shorten. rewrite Hs, Hq, He.
  cbn [isNaN orb number_leb].
  apply Qle_bool_iff in Hfit. now rewrite Hfit.
Qed.

Lemma shorten_fits_witness :
  shorten (VStringObject 4%nat "ab") (Some (Num 5)) (Some (Num (-1))) []
  = (Normal (VStringObject 4%nat "ab"), []).
Proof.
  apply (shorten_fits (VStringObject 4%nat "ab") "ab" (Some (Num 5))
           (Some (Num (-1))) 5 [] eq_refl eq_refl eq_refl).
  discriminate.
Defined.

(** X7. A text longer than a non-negative [length] is cut to its first
    [floor(length)] characters followed by [ellipsisCount] dots, as a
    primitive string: the result has [floor(length) + ellipsisCount]
    characters, which can be more than the text had. *)
Theorem shorten_cuts (text : value) (s : string) (length ellipsisCount : option number)
  (q : Q) (k : nat) (tr : trace) :
  string_like text = Some s ->
  default (Num 10) length = Num q ->
  array_length (default (Num 3) ellipsisCount) = Some k ->
  (0 <= q)%Q -> (q < inject_Z (String_length s))%Q ->
  exists r,
    shorten text length ellipsisCount tr = (Normal (VString r), tr)
    /\ chars r = firstn (Z.to_nat (Qfloor q)) (chars s) ++ repeat "."%char k
    /\ String_length r = Qfloor q + Z.of_nat k.
Proof.
  intros Hs Hq Hk H0 Hlong.
  eexists. split; [now apply (shorten_cut text s length ellipsisCount q k)|].
  assert (Ht : ToIntegerOrInfinity (Num q) = Qfloor q).
  { unfold ToIntegerOrInfinity. apply Qle_bool_iff in H0. now rewrite H0. }
  assert (Hf0 : 0 <= Qfloor q).
  { change 0 with (Qfloor 0). now apply Qfloor_resp_le. }
  assert (Hfl : Qfloor q < String_length s).
  { rewrite Zlt_Qlt. eapply Qle_lt_trans; [apply Qfloor_le | exact Hlong]. }
  rewrite Ht.
  assert (Hc : chars (String_slice s 0 (Qfloor q)
                      ++ String.concat "" (map (fun _ : value => ".")
                                             (repeat VUndefined k)))%string
               = firstn (Z.to_nat (Qfloor q)) (chars s) ++ repeat "."%char k).
  { now rewrite chars_app, ellipsis_dots, String_slice_prefix. }
  split; [exact Hc|].
  unfold String_length at 1.
  rewrite <- chars_length, Hc, length_app, repeat_length, length_firstn, chars_length.
  unfold String_length in Hfl. lia.
Qed.

Lemma shorten_cuts_witness :
  exists r,
    shorten (VString "abcdefghijk") (Some (Num 10)) None [] = (Normal (VString r), [])
    /\ chars r = firstn (Z.to_nat (Qfloor 10)) (chars "abcdefghijk") ++ repeat "."%char 3
    /\ String_length r = Qfloor 10 + Z.of_nat 3.
Proof.
  apply (shorten_cuts (VString "abcdefghijk") "abcdefghijk" (Some (Num 10)) None
           10 3 [] eq_refl eq_refl eq_refl).
  - discriminate.
  - reflexivity.
Defined.

(** X8. A negative [length] counts from the end: the text loses its last
    [-ceil(length)] characters (all of them if it has fewer, and all of them
    for a length between -1 and 0) before the dots are appended. *)
Theorem shorten_negative_length (text : value) (s : string)
  (length ellipsisCount : option number) (q : Q) (k : nat) (tr : trace) :
  string_like text = Some s ->
  default (Num 10) length = Num q ->
  array_length (default (Num 3) ellipsisCount) = Some k ->
  (q < 0)%Q ->
  exists r,
    shorten text length ellipsisCount tr = (Normal (VString r), tr)
    /\ chars r
       = firstn (if Qceiling q <? 0
                 then Z.to_nat (String_length s + Qceiling q) else 0%nat) (chars s)
         ++ repeat "."%char k.
Proof.
  intros Hs Hq Hk Hneg.
  assert (Hlong : (q < inject_Z (String_length s))%Q).
  { eapply Qlt_le_trans; [exact Hneg|].
    change 0%Q with (inject_Z 0). rewrite <- Zle_Qle. unfold String_length. lia. }
  eexists. split; [now apply (shorten_cut text s length ellipsisCount q k)|].
  assert (Ht : ToIntegerOrInfinity (Num q) = Qceiling q).
  { unfold ToIntegerOrInfinity.
    destruct (Qle_bool 0 q) eqn:E; [|reflexivity].
    apply Qle_bool_iff in E. exfalso.
    exact (Qlt_irrefl q (Qlt_le_trans q 0 q Hneg E)). }
  assert (Hc0 : Qceiling q <= 0).
  { change 0 with (Qceiling 0). apply Qceiling_resp_le. now apply Qlt_le_weak. }
  rewrite Ht, chars_app, ellipsis_dots. f_equal.
  destruct (Z.ltb_spec (Qceiling q) 0) as [Hlt|Hge].
  - now apply String_slice_drop_end.
  - replace (Qceiling q) with 0 by lia. now rewrite String_slice_prefix by lia.
Qed.

Lemma shorten_negative_length_witness :
  exists r,
    shorten (VString "abcdef") (Some (Num (-2))) (Some (Num 1)) []
    = (Normal (VString r), [])
    /\ chars r = chars "abcd.".
Proof.
  apply (shorten_negative_length (VString "abcdef") "abcdef" (Some (Num (-2)))
           (Some (Num 1)) (-2) 1 [] eq_refl eq_refl eq_refl).
  reflexivity.
Defined.

(** X9. [shorten] throws when it has to cut and cannot build the ellipsis:
    for a text longer than [length] and an [ellipsisCount] that is a number
    but not an integer of [0, 2^32 - 1] (negative or fractional), it throws
    a RangeError and logs nothing. *)
Theorem shorten_invalid_ellipsis (text : value) (s : string)
  (length ellipsisCount : option number) (q e : Q) (tr : trace) :
  string_like text = Some s ->
  default (Num 10) length = Num q ->
  default (Num 3) ellipsisCount = Num e ->
  (forall k : nat, Z.of_nat k < 2 ^ 32 -> ~ (e == inject_Z (Z.of_nat k))%Q) ->
  (q < inject_Z (String_length s))%Q ->
  shorten text length ellipsisCount tr
  = (Throw (RangeError "Invalid array length"), tr).
Proof.
  intros Hs Hq He Hnot Hlong. unfold shorten. rewrite Hs, Hq, He.
  cbn [isNaN orb number_leb].
  destruct (Qle_bool (inject_Z (String_length s)) q) eqn:Hle.
  - apply Qle_bool_iff in Hle. exfalso. apply (Qlt_irrefl q).
    eapply Qlt_le_trans; eassumption.
  - apply bind_throw. unfold lift, Array_from_Array.
    destruct (array_length (Num e)) as [k|] eqn:E; [|reflexivity].
    apply array_length_spec in E as [Hk1 Hk2]. now destruct (Hnot k Hk2).
Qed.

Lemma shorten_invalid_ellipsis_witness :
  shorten (VString "abcdefghijk") (Some (Num 5)) (Some (Num (-3))) []
  = (Throw (RangeError "Invalid array length"), []).
Proof.
  apply (shorten_invalid_ellipsis (VString "abcdefghijk") "abcdefghijk"
           (Some (Num 5)) (Some (Num (-3))) 5 (-3) [] eq_refl eq_refl eq_refl).
  - intros k _ H. unfold Qeq in H. simpl in H. lia.
  - reflexivity.
Defined.

(** ** removeDuplicates: arrays without duplicates *)

Lemma keys_NoDupA (l : list value) : NoDupA same_value l -> NoDup (map key_of l).
Proof.
  induction l as [|x r IH]; simpl; intros H; [constructor|].
  inversion H as [|? ? Hn Hr]; subst. constructor; [|auto].
  intros Hin. apply Hn. apply in_map_iff in Hin as (y & Hk & Hy).
  apply InA_alt. exists y. split; [|assumption].
  apply sameValueZero_key. now symmetry.
Qed.

Lemma fold_Set_add_fresh (l entries : list value) :
  NoDup (map key_of (entries ++ l)) -> fold_left Set_add l entries = entries ++ l.
Proof.
  revert entries; induction l as [|x r IH]; intros entries Hnd; simpl.
  - now rewrite app_nil_r.
  - assert (Hnew : Set_has entries x = false).
    { unfold Set_has. destruct (existsb (sameValueZero x) entries) eqn:E; [|reflexivity].
      apply existsb_same_key in E.
      rewrite map_app in Hnd. simpl in Hnd.
      apply NoDup_remove_2 in Hnd. exfalso. apply Hnd.
      apply in_or_app. now left. }
    unfold Set_add. rewrite Hnew.
    rewrite IH; rewrite <- app_assoc; [reflexivity | exact Hnd].
Qed.

Lemma fold_Set_add_length (l entries : list value) :
  (List.length (fold_left Set_add l entries) <= List.length entries + List.length l)%nat.
Proof.
  revert entries; induction l as [|x r IH]; intros entries; simpl; [lia|].
  specialize (IH (Set_add entries x)).
  unfold Set_add in *. destruct (Set_has entries x).
  - lia.
  - rewrite length_app in IH. simpl in IH. lia.
Qed.

(** X10. [removeDuplicates] applied to its own result changes nothing; it
    returns a copy of the input exactly when the input has no two elements
    of the same value; and its result is never longer than the input. *)
Theorem removeDuplicates_idempotent (l : loc) (elems : list value) (tr : trace) :
  removeDuplicates (VArray l (first_occurrences elems)) tr
  = (Normal (Some (first_occurrences elems)), tr)
  /\ (first_occurrences elems = elems <-> NoDupA same_value elems)
  /\ (List.length (first_occurrences elems) <= List.length elems)%nat.
Proof.
  assert (Hnd : NoDup (map key_of (first_occurrences elems))).
  { rewrite <- new_Set_first_occurrences. apply fold_Set_add_NoDup. constructor. }
  split; [|split].
  - unfold removeDuplicates, ret. f_equal. f_equal.
    unfold new_Set. now rewrite fold_Set_add_fresh.
  - split.
    + intros <-. now apply NoDupA_keys.
    + intros H. rewrite <- new_Set_first_occurrences. unfold new_Set.
      rewrite fold_Set_add_fresh; [reflexivity|]. now apply keys_NoDupA.
  - rewrite <- new_Set_first_occurrences. apply (fold_Set_add_length elems []).
Qed.

Lemma removeDuplicates_idempotent_witness :
  first_occurrences [VNumber NaN; VString "a"; VNull]
  = [VNumber NaN; VString "a"; VNull].
Proof.
  apply (proj1 (proj2 (removeDuplicates_idempotent 0%nat
                         [VNumber NaN; VString "a"; VNull] []))).
  repeat constructor; intros H; apply InA_alt in H as (y & Hs & Hy);
    simpl in Hy; intuition (subst; discriminate).
Defined.

(** ** measureTime *)

(** X11. For a callable [func], [measureTime] starts the console timer of
    the label ("default" when none is given), invokes [func] once and, if
    the call returns, ends the timer and resolves with [undefined]; if the
    call throws, the promise is rejected with that error and the timer of
    the label is never ended. *)
Theorem measureTime_brackets (l : loc) (behaviour : nat -> option error)
  (label : option string) (tr : trace) :
  (behaviour (invocations l tr) = None ->
   measureTime (VFunction l behaviour) label tr
   = (Resolved VUndefined,
      tr ++ [ConsoleTime (default "default" label); Invoke l;
             ConsoleTimeEnd (default "default" label)]))
  /\ (forall e, behaviour (invocations l tr) = Some e ->
      measureTime (VFunction l behaviour) label tr
      = (Rejected e, tr ++ [ConsoleTime (default "default" label); Invoke l])).
Proof.
  assert (Hinv : invocations l (tr ++ [ConsoleTime (default "default" label)])
                 = invocations l tr).
  { rewrite invocations_app. unfold invocations at 2. simpl. lia. }
  split; [intros Hb | intros e Hb];
    unfold measureTime, async, bind, console_time, console_timeEnd, call, ret;
    cbn [typeof]; rewrite String.eqb_refl; cbn [negb];
    rewrite Hinv, Hb; rewrite <- !app_assoc; reflexivity.
Qed.

Lemma measureTime_brackets_witness :
  measureTime (VFunction 3%nat (fun _ => Some (Thrown 1))) (Some "load") []
  = (Rejected (Thrown 1), [ConsoleTime "load"; Invoke 3%nat]).
Proof.
  apply (proj2 (measureTime_brackets 3%nat (fun _ => Some (Thrown 1))
                  (Some "load") []) (Thrown 1)).
  reflexivity.
Defined.

(** ** slugify *)

Lemma kept_char_is_slug (c : ascii) :
  let d := if Ascii.eqb (lower_char c) " " then "-"%char else lower_char c in
  is_word d || Ascii.eqb d "-" = true -> slug_char d = true.
Proof. each_ascii c; intros H; try discriminate H; reflexivity. Qed.

Lemma slug_char_fixed (c : ascii) :
  slug_char c = true ->
  lower_char c = c /\ Ascii.eqb c " " = false /\ is_word c || Ascii.eqb c "-" = true.
Proof. each_ascii c; intros H; try discriminate H; repeat split; reflexivity. Qed.

Lemma slug_chars (s : string) :
  forallb slug_char (chars (remove_non_word (replace_spaces (toLowerCase s)))) = true.
Proof.
  induction s as [|c s IH]; [reflexivity|].
  cbn [toLowerCase replace_spaces remove_non_word].
  pose proof (kept_char_is_slug c) as Hc. cbv zeta in Hc.
  destruct (is_word _ || Ascii.eqb _ "-") eqn:E; [|exact IH].
  cbn [list_ascii_of_string forallb]. now rewrite Hc, IH.
Qed.

Lemma slug_length (s : string) :
  (String.length (remove_non_word (replace_spaces (toLowerCase s)))
   <= String.length s)%nat.
Proof.
  induction s as [|c s IH]; [simpl; lia|].
  cbn [toLowerCase replace_spaces remove_non_word].
  destruct (is_word _ || Ascii.eqb _ "-"); simpl; lia.
Qed.

Lemma slug_fixed (r : string) :
  forallb slug_char (chars r) = true ->
  remove_non_word (replace_spaces (toLowerCase r)) = r.
Proof.
  induction r as [|c r IH]; [reflexivity|].
  cbn [list_ascii_of_string forallb]. intros H.
  apply andb_true_iff in H as [Hc Hr].
  destruct (slug_char_fixed c Hc) as (Hl & Hsp & Hw).
  cbn [toLowerCase replace_spaces remove_non_word].
  rewrite Hl, Hsp, Hw. now rewrite IH.
Qed.

(** X12. A slug is made of the characters [a-z], [0-9], underscore and
    hyphen only, and is never longer than the text it comes from. *)
Theorem slugify_alphabet (text : value) (s : string) (tr : trace) :
  string_like text = Some s ->
  exists r,
    slugify text tr = (Normal (VString r), tr)
    /\ forallb slug_char (chars r) = true
    /\ (String.length r <= String.length s)%nat.
Proof.
  intros Hs. eexists. split; [|split].
  - unfold slugify. rewrite Hs. reflexivity.
  - apply slug_chars.
  - apply slug_length.
Qed.

Lemma slugify_alphabet_witness :
  exists r,
    slugify (VString "Hello World!") [] = (Normal (VString r), [])
    /\ forallb slug_char (chars r) = true
    /\ (String.length r <= String.length "Hello World!")%nat.
Proof. apply (slugify_alphabet (VString "Hello World!") "Hello World!" [] eq_refl). Defined.

(** X13. [slugify] is idempotent: a slug is its own slug. *)
Theorem slugify_idempotent (text : value) (s : string) (slug : value) (tr : trace) :
  string_like text = Some s ->
  slugify text tr = (Normal slug, tr) ->
  slugify slug tr = (Normal slug, tr).
Proof.
  intros Hs Hrun. unfold slugify in Hrun. rewrite Hs in Hrun. unfold ret in Hrun.
  injection Hrun as <-.
  unfold slugify, ret. cbn [string_like].
  now rewrite (slug_fixed _ (slug_chars s)).
Qed.

Lemma slugify_idempotent_witness :
  slugify (VString "hello-world") [] = (Normal (VString "hello-world"), []).
Proof.
  apply (slugify_idempotent (VString "Hello World!") "Hello World!"
           (VString "hello-world") [] eq_refl eq_refl).
Defined.

(** ** camelToSnakeCase *)

Lemma lower_of_upper (c : ascii) :
  is_upper c = true ->
  is_upper (lower_char c) = false
  /\ is_lower (lower_char c) = true
  /\ upper_char (lower_char c) = c.
Proof. each_ascii c; intros H; try discriminate H; repeat split; reflexivity. Qed.

Lemma replace_upper_cons (c : ascii) (r : string) :
  replace_upper (String c r) =
  if is_upper c then String "_" (String (lower_char c) (replace_upper r))
  else String c (replace_upper r).
Proof. reflexivity. Qed.

Lemma replace_upper_chars (s : string) :
  forallb (fun c => negb (is_upper c)) (chars (replace_upper s)) = true
  /\ String.length (replace_upper s) = (String.length s + count_upper s)%nat.
Proof.
  unfold count_upper.
  induction s as [|c s [IH1 IH2]]; [split; reflexivity|].
  rewrite replace_upper_cons. cbn [list_ascii_of_string filter].
  destruct (is_upper c) eqn:E.
  - destruct (lower_of_upper c E) as (Hl & _).
    cbn [list_ascii_of_string forallb String.length List.length].
    rewrite Hl, IH1, IH2. split; [reflexivity | lia].
  - cbn [list_ascii_of_string forallb String.length].
    rewrite E, IH1, IH2. split; [reflexivity | lia].
Qed.

(** X14. The result of [camelToSnakeCase] contains no letter of [A-Z], and
    is longer than the text by one character (the underscore) for every
    such letter of the text, a leading one included. *)
Theorem camelToSnakeCase_shape (text : value) (s : string) (tr : trace) :
  string_like text = Some s ->
  exists r,
    camelToSnakeCase text tr = (Normal (VString r), tr)
    /\ forallb (fun c => negb (is_upper c)) (chars r) = true
    /\ String.length r = (String.length s + count_upper s)%nat.
Proof.
  intros Hs. eexists. split.
  - unfold camelToSnakeCase. rewrite Hs. reflexivity.
  - apply replace_upper_chars.
Qed.

Lemma camelToSnakeCase_shape_witness :
  exists r,
    camelToSnakeCase (VString "HelloWorld") [] = (Normal (VString r), [])
    /\ forallb (fun c => negb (is_upper c)) (chars r) = true
    /\ String.length r = (String.length "HelloWorld" + count_upper "HelloWorld")%nat.
Proof. apply (camelToSnakeCase_shape (VString "HelloWorld") "HelloWorld" [] eq_refl). Defined.

(** ** snakeToCamelCase after camelToSnakeCase *)






(** ** stringToColor: the hash is a polynomial of base 31 *)








(** ** chunk: position, number and size of the chunks *)


Section ChunkClosedForm.

Context {T : Type}.




End ChunkClosedForm.





(** ** getTimeBetween: distance and ranges *)





(** ** debounce *)

Lemma debounce_run_app (d : debounced) (a b : list action_on) (st : debounce_state) :
  debounce_run d (a ++ b) st = debounce_run d b (debounce_run d a st).
Proof. apply fold_left_app. Qed.

Lemma debounce_run_cons (d : debounced) (a : action_on) (r : list action_on)
  (st : debounce_state) :
  debounce_run d (a :: r) st = debounce_run d r (debounce_step d st a).
Proof. reflexivity. Qed.

(** What a call leaves in the host: its own timer and nothing else. *)
Lemma debounced_call_state (d : debounced) (args : list value) (st : debounce_state) :
  debounce_inv d st ->
  debounced_call d args st
  = mkState (Some (next_handle (the_host st)))
      (mkHost (clock (the_host st)) (S (next_handle (the_host st)))
         [mkTimer (next_handle (the_host st))
            (clock (the_host st) + timer_delay (d_timeout d)) (callback_of d args)]
         (happened (the_host st))).
Proof.
  destruct st as [tm [clk nh pend hp]]. unfold debounce_inv. cbn [the_host timer pending].
  intros [-> | (id & when & args' & -> & ->)];
    unfold debounced_call, setTimeout, clearTimeout; cbn.
  - destruct tm; reflexivity.
  - rewrite Nat.eqb_refl. reflexivity.
Qed.

Lemma debounce_inv_step (d : debounced) (st : debounce_state) (a : action_on) :
  debounce_inv d st -> debounce_inv d (debounce_step d st a).
Proof.
  intros Hinv. destruct a as [args|ms|].
  - cbn [debounce_step]. rewrite (debounced_call_state d args st Hinv).
    right. eexists _, _, _. split; reflexivity.
  - exact Hinv.
  - destruct st as [tm [clk nh pend hp]]. unfold debounce_inv in *.
    cbn [debounce_step the_host timer pending] in *.
    destruct Hinv as [-> | (id & when & args & -> & ->)]; [now left|].
    unfold timers_turn. cbn [pending clock next_handle happened filter].
    destruct (is_due clk (mkTimer id when (callback_of d args)));
      cbn [negb the_host timer pending]; [now left|].
    right. eexists _, _, _. split; reflexivity.
Qed.

Lemma debounce_inv_run (d : debounced) (acts : list action_on) (st : debounce_state) :
  debounce_inv d st -> debounce_inv d (debounce_run d acts st).
Proof.
  revert st; induction acts as [|a acts IH]; intros st H; [exact H|].
  rewrite debounce_run_cons. apply IH, debounce_inv_step, H.
Qed.

Lemma quiet_nothing_pending (d : debounced) (quiet : list action_on)
  (st : debounce_state) :
  pending (the_host st) = [] -> forallb is_quiet quiet = true ->
  happened (the_host (debounce_run d quiet st)) = happened (the_host st).
Proof.
  revert st; induction quiet as [|a quiet IH]; intros st Hp Hq; [reflexivity|].
  cbn [forallb] in Hq. apply andb_true_iff in Hq as [Ha Hq].
  destruct st as [tm [clk nh pend hp]]. cbn [the_host pending] in Hp. subst pend.
  destruct a as [args|ms|]; [discriminate| |]; rewrite debounce_run_cons, IH;
    cbn; auto using app_nil_r.
Qed.

(** A pending timer runs at the first turn that comes late enough, and only
    then. *)
Lemma quiet_one_pending (d : debounced) (quiet : list action_on)
  (tm : option nat) (clk : Z) (nh id : nat) (when after : Z) (cb : callback)
  (hp : list outcome) :
  forallb is_quiet quiet = true ->
  happened (the_host (debounce_run d quiet
     (mkState tm (mkHost clk nh [mkTimer id when cb] hp))))
  = hp ++ (if fires_from (clk - when + after) after quiet
           then [apply_callback cb] else []).
Proof.
  revert clk; induction quiet as [|a quiet IH]; intros clk Hq.
  - cbn. now rewrite app_nil_r.
  - cbn [forallb] in Hq. apply andb_true_iff in Hq as [Ha Hq].
    destruct a as [args|ms|]; [discriminate| |];
      rewrite debounce_run_cons; cbn [debounce_step].
    + unfold elapse; cbn [the_host timer clock next_handle pending happened].
      rewrite (IH _ Hq). cbn [fires_from].
      replace (clk + Z.max 0 ms - when + after)
        with (clk - when + after + Z.max 0 ms) by lia.
      reflexivity.
    + unfold timers_turn; cbn [the_host timer clock next_handle pending happened].
      cbn [filter fires_from]. unfold is_due. cbn [due].
      replace (after <=? clk - when + after) with (when <=? clk)
        by (destruct (Z.leb_spec when clk), (Z.leb_spec after (clk - when + after));
            lia || reflexivity).
      destruct (when <=? clk); cbn [negb orb by_due fold_right insert_by_due map action].
      * rewrite quiet_nothing_pending by (cbn; auto). reflexivity.
      * rewrite app_nil_r. apply (IH _ Hq).
Qed.

Lemma call_then_quiet (d : debounced) (args : list value) (quiet : list action_on)
  (st : debounce_state) :
  debounce_inv d st -> forallb is_quiet quiet = true ->
  happened (the_host (debounce_run d (Call args :: quiet) st))
  = happened (the_host st)
    ++ (if fires_from 0 (timer_delay (d_timeout d)) quiet
        then [apply_callback (callback_of d args)] else []).
Proof.
  intros Hinv Hq. rewrite debounce_run_cons. cbn [debounce_step].
  rewrite (debounced_call_state d args st Hinv).
  rewrite (quiet_one_pending d quiet _ _ _ _ _ (timer_delay (d_timeout d)) _ _ Hq).
  replace (clock (the_host st) - (clock (the_host st) + timer_delay (d_timeout d))
           + timer_delay (d_timeout d)) with 0 by lia.
  reflexivity.
Qed.

Lemma debounce_count (d : debounced) (acts : list action_on) (st : debounce_state) :
  debounce_inv d st ->
  (List.length (happened (the_host (debounce_run d acts st)))
   + List.length (pending (the_host (debounce_run d acts st)))
   <= List.length (happened (the_host st)) + List.length (pending (the_host st))
      + calls acts)%nat.
Proof.
  revert st; induction acts as [|a acts IH]; intros st Hinv; [cbn; lia|].
  rewrite debounce_run_cons.
  specialize (IH _ (debounce_inv_step d st a Hinv)).
  etransitivity; [exact IH|]. clear IH.
  unfold calls. cbn [filter].
  destruct a as [args|ms|]; cbn [is_quiet negb List.length debounce_step].
  - rewrite (debounced_call_state d args st Hinv). cbn. lia.
  - cbn. lia.
  - destruct st as [tm [clk nh pend hp]]. unfold debounce_inv in Hinv.
    cbn [the_host timer pending] in Hinv.
    destruct Hinv as [-> | (id & when & args & -> & ->)]; cbn.
    + rewrite app_nil_r. lia.
    + destruct (is_due clk (mkTimer id when (callback_of d args))); cbn;
        rewrite ?length_app, ?app_nil_r; cbn; lia.
Qed.

(** X21. However a debounced function is called while time passes and the
    event loop turns, it never has more than one timer pending, the pending
    timer is the one its variable [timer] holds, and [func] has been
    applied at most as many times as the function was called. *)
Theorem debounce_single_timer (d : debounced) (acts : list action_on)
  (st : debounce_state) :
  pending (the_host st) = [] ->
  debounce_inv d (debounce_run d acts st)
  /\ (List.length (pending (the_host (debounce_run d acts st))) <= 1)%nat
  /\ (List.length (happened (the_host (debounce_run d acts st)))
      <= List.length (happened (the_host st)) + calls acts)%nat.
Proof.
  intros Hp.
  assert (Hinv : debounce_inv d st) by now left.
  pose proof (debounce_inv_run d acts st Hinv) as Hrun.
  pose proof (debounce_count d acts st Hinv) as Hc. rewrite Hp in Hc. cbn in Hc.
  split; [exact Hrun|]. split; [|lia].
  destruct Hrun as [-> | (id & when & args & _ & ->)]; cbn; lia.
Qed.

Lemma debounce_single_timer_witness :
  let d := debounce VUndefined (VFunction 1%nat (fun _ => None)) None in
  let st := debounce_run d [Call []; Elapse 10; Call []; Turn; Call []]
              (mkState None (mkHost 0 0 [] [])) in
  (List.length (pending (the_host st)) <= 1)%nat.
Proof.
  cbv zeta.
  apply (debounce_single_timer
           (debounce VUndefined (VFunction 1%nat (fun _ => None)) None)
           [Call []; Elapse 10; Call []; Turn; Call []]
           (mkState None (mkHost 0 0 [] []))).
  reflexivity.
Defined.

(** X22. After a call of the debounced function, whatever came before, the
    callback of that call runs exactly once (applying [func] with the
    [this] of [debounce] and the arguments of that call, or failing with an
    uncaught TypeError when [func] is not callable, which [debounce] never
    checks), at the first turn of the event loop that comes at least the
    delay after the call, and not at all if no such turn comes before the
    next call.  Nothing else runs: a timer left by an earlier call is
    dropped, and the call itself applies nothing. *)
Theorem debounce_trailing (d : debounced) (before quiet : list action_on)
  (args : list value) (st : debounce_state) :
  pending (the_host st) = [] -> forallb is_quiet quiet = true ->
  happened (the_host (debounce_run d (before ++ Call args :: quiet) st))
  = happened (the_host (debounce_run d before st))
    ++ (if fires_from 0 (timer_delay (d_timeout d)) quiet
        then [apply_callback (callback_of d args)] else []).
Proof.
  intros Hp Hq. rewrite debounce_run_app.
  apply call_then_quiet; [|exact Hq].
  apply debounce_inv_run. now left.
Qed.

Lemma debounce_trailing_witness :
  let d := debounce (VObject 5%nat) (VFunction 1%nat (fun _ => None)) (Some (Num 50)) in
  happened (the_host (debounce_run d
     ([Call [VString "a"]; Elapse 49; Turn]
      ++ Call [VString "b"] :: [Elapse 49; Turn; Elapse 1; Turn; Elapse 100; Turn])
     (mkState None (mkHost 0 0 [] []))))
  = [Applied 1%nat (VObject 5%nat) [VString "b"]].
Proof.
  cbv zeta.
  apply (debounce_trailing
           (debounce (VObject 5%nat) (VFunction 1%nat (fun _ => None)) (Some (Num 50)))
           [Call [VString "a"]; Elapse 49; Turn]
           [Elapse 49; Turn; Elapse 1; Turn; Elapse 100; Turn]
           [VString "b"] (mkState None (mkHost 0 0 [] []))).
  - reflexivity.
  - reflexivity.
Defined.

Lemma burst_quiet (d : debounced) (b : list (list value * list action_on))
  (st : debounce_state) :
  debounce_inv d st -> burst (timer_delay (d_timeout d)) b = true ->
  happened (the_host (debounce_run d (burst_actions b) st)) = happened (the_host st).
Proof.
  revert st; induction b as [|[args quiet] b IH]; intros st Hinv Hb; [reflexivity|].
  unfold burst in Hb. cbn [forallb snd] in Hb.
  apply andb_true_iff in Hb as [Hc Hb]. apply andb_true_iff in Hc as [Hq Hf].
  apply negb_true_iff in Hf.
  cbn [burst_actions flat_map fst snd].
  change (Call args :: quiet ++ flat_map (fun c => Call (fst c) :: snd c) b)
    with ((Call args :: quiet) ++ burst_actions b).
  rewrite debounce_run_app, IH.
  - rewrite (call_then_quiet d args quiet st Hinv Hq), Hf. apply app_nil_r.
  - now apply debounce_inv_run.
  - exact Hb.
Qed.

(** X23. A burst of calls, each followed by no turn of the event loop as
    late as the delay after it before the next call comes, then a quiet
    period in which the loop turns at least the delay after the last call,
    applies [func] exactly once, to the arguments of the last call. *)
Theorem debounce_burst (d : debounced) (b : list (list value * list action_on))
  (args : list value) (quiet : list action_on) (st : debounce_state) :
  pending (the_host st) = [] ->
  burst (timer_delay (d_timeout d)) b = true ->
  forallb is_quiet quiet = true ->
  fires_from 0 (timer_delay (d_timeout d)) quiet = true ->
  happened (the_host (debounce_run d (burst_actions b ++ Call args :: quiet) st))
  = happened (the_host st) ++ [apply_callback (callback_of d args)].
Proof.
  intros Hp Hb Hq Hf.
  assert (Hinv : debounce_inv d st) by now left.
  rewrite debounce_run_app.
  rewrite (call_then_quiet d args quiet _ (debounce_inv_run d _ st Hinv) Hq), Hf.
  now rewrite (burst_quiet d b st Hinv Hb).
Qed.

Lemma debounce_burst_witness :
  let d := debounce VUndefined (VFunction 1%nat (fun _ => None)) None in
  happened (the_host (debounce_run d
     (burst_actions [([VNumber (Num 1)], [Elapse 100; Turn]);
                     ([VNumber (Num 2)], [Elapse 299; Turn])]
      ++ Call [VNumber (Num 3)] :: [Elapse 300; Turn])
     (mkState None (mkHost 0 0 [] []))))
  = [] ++ [Applied 1%nat VUndefined [VNumber (Num 3)]].
Proof.
  cbv zeta.
  apply (debounce_burst
           (debounce VUndefined (VFunction 1%nat (fun _ => None)) None)
           [([VNumber (Num 1)], [Elapse 100; Turn]);
            ([VNumber (Num 2)], [Elapse 299; Turn])]
           [VNumber (Num 3)] [Elapse 300; Turn]
           (mkState None (mkHost 0 0 [] []))); reflexivity.
Defined.
